(** * ConnectionConfig: connection-profile / connection-group storage

    A shallow embedding of [src/connectionconfig/connectionconfig.ts].

    The class keeps no data of its own: every operation reads arrays of
    records from the editor's settings backend, recomputes them and writes
    them back.  The embedding therefore threads an explicit [Store] holding
    the three settings layers (global, workspace, workspace folder) of the
    two arrays, the "already warned" flag of the class, a supply of GUIDs, a
    counter of settings writes and the debug narration of the logger.

    JavaScript property values are modelled as [option string]: [None] is
    [undefined], [Some ""] the empty string; [truthy] is JavaScript's
    truthiness on those values.  Every read of the settings backend yields a
    fresh copy (as [WorkspaceConfiguration.inspect] does), so the in-place
    mutations of the source become functional updates that reach the store
    only through the write calls. *)

From Stdlib Require Import ZArith Lia OrdersEx.
From stdpp Require Import base list strings gmap sorting pretty.

Local Open Scope string_scope.
Local Open Scope list_scope.

(** ** JavaScript values *)

Definition jsval := option string.

Definition truthy (v : jsval) : bool :=
  match v with
  | Some s => bool_decide (s ≠ "")
  | None => false
  end.

(** [String(v)] for a possibly undefined string. *)
Definition toString (v : jsval) : string :=
  match v with
  | Some s => s
  | None => "undefined"
  end.

(** ** Data model *)

Module Profile.
Record t := mk {
  id : jsval;
  groupId : jsval;
  profileName : jsval;
  server : jsval;
  connectionString : jsval;
  (* the remaining connection-defining fields, opaque to this class *)
  extra : list (string * string)
}.

Definition with_id (v : jsval) (p : t) : t :=
  mk v (groupId p) (profileName p) (server p) (connectionString p) (extra p).
Definition with_groupId (v : jsval) (p : t) : t :=
  mk (id p) v (profileName p) (server p) (connectionString p) (extra p).
End Profile.

Module Group.
Record t := mk {
  id : jsval;
  name : jsval;
  parentId : jsval
}.

Definition with_id (v : jsval) (g : t) : t := mk v (name g) (parentId g).
Definition with_parentId (v : jsval) (g : t) : t := mk (id g) (name g) v.
End Group.

#[global] Instance Profile_eq_dec : EqDecision Profile.t.
Proof. solve_decision. Defined.

#[global] Instance Group_eq_dec : EqDecision Group.t.
Proof. solve_decision. Defined.

Inductive ConfigTarget := Global | Workspace.

Inductive ContentAction := delete | move.

Inductive Scope := user | workspace.

(** Errors an operation can end with. *)
Inductive JsError :=
| TypeError                           (* [undefined.localeCompare(...)] *)
| RangeError                          (* call stack exhausted *)
| ConnectionNotFound (id : jsval)     (* [Connection with ID ... not found] *)
| GroupNotFound (id : jsval).         (* [Connection group with ID ... not found when updating] *)

(** The calls to [Logger.logDebug], all of which sit in the integrity engine. *)
Inductive DebugEvent :=
| MigratedGroup (g : Group.t)
| ReparentedOrphanGroup (g : Group.t)
| AddedGroupId (g : Group.t)
| AddedGroupParentId (g : Group.t)
| WritingGroups (n : nat)
| MigratedConnection (p : Profile.t)
| ReparentedOrphanConnection (p : Profile.t)
| AddedConnectionIds (p : Profile.t)
| WritingProfiles (n : nat).

#[global] Instance DebugEvent_eq_dec : EqDecision DebugEvent.
Proof. solve_decision. Defined.

(** ** The settings backend and the state of the class *)

Record Store := mkStore {
  globalConnections : list Profile.t;
  workspaceConnections : list Profile.t;
  workspaceFolderConnections : list Profile.t;
  globalGroups : list Group.t;
  workspaceGroups : list Group.t;
  workspaceFolderGroups : list Group.t;
  hasDisplayedMissingIdError : bool;
  nextGuid : nat;
  settingsWrites : nat;
  debugLog : list DebugEvent
}.

(** How an asynchronous operation ends: fulfilled with a value or rejected
    with an error, in both cases with the store it leaves behind. *)
Inductive Outcome (A : Type) :=
| Return (a : A) (st : Store)
| Throw (e : JsError) (st : Store).
Arguments Return {A} a st.
Arguments Throw {A} e st.

Definition M (A : Type) := Store → Outcome A.

(** The monad of operations; stdpp's [x ← m; k] and [m;; k] sequence them. *)
#[global] Instance M_ret : MRet M := fun A a st => Return a st.
#[global] Instance M_bind : MBind M := fun A B k m st =>
  match m st with
  | Return a st' => k a st'
  | Throw e st' => Throw e st'
  end.

Definition throw {A} (e : JsError) : M A := fun st => Throw e st.

(** ** Settings access layer *)

Definition getConnectionsFromSettings (configLocation : ConfigTarget)
    (st : Store) : list Profile.t :=
  match configLocation with
  | Global => globalConnections st
  | Workspace => workspaceConnections st ++ workspaceFolderConnections st
  end.

Definition getGroupsFromSettings (configLocation : ConfigTarget)
    (st : Store) : list Group.t :=
  match configLocation with
  | Global => globalGroups st
  | Workspace => workspaceGroups st ++ workspaceFolderGroups st
  end.

Definition writeConnectionsToSettings (profiles : list Profile.t)
    (configTarget : ConfigTarget) : M unit := fun st =>
  Return tt
    match configTarget with
    | Global =>
        mkStore profiles (workspaceConnections st) (workspaceFolderConnections st)
          (globalGroups st) (workspaceGroups st) (workspaceFolderGroups st)
          (hasDisplayedMissingIdError st) (nextGuid st)
          (S (settingsWrites st)) (debugLog st)
    | Workspace =>
        mkStore (globalConnections st) profiles (workspaceFolderConnections st)
          (globalGroups st) (workspaceGroups st) (workspaceFolderGroups st)
          (hasDisplayedMissingIdError st) (nextGuid st)
          (S (settingsWrites st)) (debugLog st)
    end.

Definition writeConnectionGroupsToSettings (connGroups : list Group.t)
    (configTarget : ConfigTarget) : M unit := fun st =>
  Return tt
    match configTarget with
    | Global =>
        mkStore (globalConnections st) (workspaceConnections st)
          (workspaceFolderConnections st)
          connGroups (workspaceGroups st) (workspaceFolderGroups st)
          (hasDisplayedMissingIdError st) (nextGuid st)
          (S (settingsWrites st)) (debugLog st)
    | Workspace =>
        mkStore (globalConnections st) (workspaceConnections st)
          (workspaceFolderConnections st)
          (globalGroups st) connGroups (workspaceFolderGroups st)
          (hasDisplayedMissingIdError st) (nextGuid st)
          (S (settingsWrites st)) (debugLog st)
    end.

Definition setDisplayedMissingIdError : M unit := fun st =>
  Return tt
    (mkStore (globalConnections st) (workspaceConnections st)
       (workspaceFolderConnections st)
       (globalGroups st) (workspaceGroups st) (workspaceFolderGroups st)
       true (nextGuid st) (settingsWrites st) (debugLog st)).

(** The store with a new GUID counter and debug log: all the integrity
    engine touches besides its settings writes. *)
Definition withRepairState (n : nat) (log : list DebugEvent) (st : Store) : Store :=
  mkStore (globalConnections st) (workspaceConnections st)
    (workspaceFolderConnections st)
    (globalGroups st) (workspaceGroups st) (workspaceFolderGroups st)
    (hasDisplayedMissingIdError st) n (settingsWrites st) log.

Definition gets {A} (f : Store → A) : M A := fun st => Return (f st) st.

Definition when (b : bool) (m : M unit) : M unit := if b then m else mret tt.

Definition logDebug (ev : DebugEvent) : M unit := fun st =>
  Return tt
    (mkStore (globalConnections st) (workspaceConnections st)
       (workspaceFolderConnections st)
       (globalGroups st) (workspaceGroups st) (workspaceFolderGroups st)
       (hasDisplayedMissingIdError st) (nextGuid st) (settingsWrites st)
       (debugLog st ++ [ev])).

(** The store an operation leaves behind, however it ends. *)
Definition storeOf {A} (o : Outcome A) : Store :=
  match o with
  | Return _ st => st
  | Throw _ st => st
  end.

(** ** A concrete instance

    Values for the constants and helpers the class takes from the rest of
    the extension, and a few stores, on which the statements below are
    exercised. *)
Module Sample.
Definition RootGroupId : string := "ROOT".
Definition RootGroupName : string := "ROOT".
Definition SampleServerName : string := "{{put-server-name-here}}".
Definition stackLimit : nat := 100.

(** Compares the connection-defining fields, not the ids. *)
Definition isSameProfile (a b : Profile.t) : bool :=
  bool_decide (Profile.profileName a = Profile.profileName b
               ∧ Profile.server a = Profile.server b
               ∧ Profile.connectionString a = Profile.connectionString b
               ∧ Profile.extra a = Profile.extra b).

(** The lexicographic order of the character codes. *)
Definition localeCompare (a b : string) : Z :=
  match String_as_OT.compare a b with
  | Lt => (-1)%Z
  | Eq => 0%Z
  | Gt => 1%Z
  end.

Definition generateGuid (n : nat) : string := "guid-" +:+ pretty n.

Definition server (id groupId name : string) : Profile.t :=
  Profile.mk (Some id) (Some groupId) None (Some name) None [].

Definition emptyStore : Store := mkStore [] [] [] [] [] [] false 0 0 [].

Definition withGlobal (connections : list Profile.t) (groups : list Group.t)
    : Store :=
  mkStore connections [] [] groups [] [] false 0 0 [].

(** The tree ROOT → A → B with one connection in A and one in B. *)
Definition tree : Store :=
  withGlobal
    [server "c1" "A" "alpha"; server "c2" "B" "beta"]
    [Group.mk (Some "A") (Some "a") (Some "ROOT");
     Group.mk (Some "B") (Some "b") (Some "A")].

Definition treeHeight (x : jsval) : nat :=
  if bool_decide (x = Some "B") then 0
  else if bool_decide (x = Some "A") then 1
  else 2.

(** Settings of an older version: a ROOT group under a generated id,
    records without ids, a parent that no longer exists. *)
Definition legacy : Store :=
  withGlobal
    [Profile.mk None None None (Some "alpha") None [];
     server "c2" "old-root" "beta";
     server "c3" "B" "gamma"]
    [Group.mk (Some "old-root") (Some "ROOT") None;
     Group.mk None (Some "a") (Some "old-root");
     Group.mk (Some "B") (Some "b") (Some "gone")].

(** A persisted record carrying the ROOT id, and nothing else. *)
Definition persistedRoot : Store :=
  withGlobal [] [Group.mk (Some "ROOT") (Some "ROOT") None].

(** Global profiles stored out of order, one of them without connection
    information; a workspace profile. *)
Definition mixed : Store :=
  mkStore
    [Profile.mk (Some "c0") (Some "ROOT") (Some "draft") None None [];
     server "c2" "ROOT" "beta";
     server "c1" "ROOT" "alpha";
     server "c3" "ROOT" "gamma"]
    [server "w1" "ROOT" "aardvark"] []
    [] [] [] false 0 0 [].

(** A group whose parent is stored nowhere. *)
Definition dangling : Group.t :=
  Group.mk (Some "X") (Some "x") (Some "missing").

(** A profile with a name and nothing to connect to. *)
Definition draft : Profile.t :=
  Profile.mk (Some "c9") (Some "ROOT") (Some "draft") None None [].

(** A new profile, as a caller hands it over: no id, no group. *)
Definition fresh : Profile.t :=
  Profile.mk None None None (Some "delta") None [].

(** Two groups, each the parent of the other. *)
Definition cyclic : Store :=
  withGlobal []
    [Group.mk (Some "A") (Some "a") (Some "B");
     Group.mk (Some "B") (Some "b") (Some "A")].
End Sample.

(** ** The registry of query runners

    A shallow embedding of the class [QueryRunnerManager] of
    [src/controllers/queryRunnerManager.ts].  A [QueryRunnerInfo] is an
    object: the [Map] of the manager holds a reference to the object its
    caller passed in, which the caller still holds and can write to.  The
    objects are the values of a heap, a reference is an address in it.  The
    [Map] is a list of pairs of a key and a reference in insertion order:
    [Map.prototype.set] replaces the value of a key that is present where it
    stands and appends a new key, [Map.prototype.values] lists the values in
    that order.  The events fired on [onDidChange] are counted. *)
Module QueryRunner.

Module Step.
Record t := mk {
  name : string;
  status : string;
  timestamp : string;
  message : jsval
}.
End Step.

Module Info.
Record t := mk {
  id : string;
  status : string;
  query : string;
  duration : Z;
  error : jsval;
  (* [None]: the property is missing, which [appendStep] provides for *)
  steps : option (list Step.t)
}.

Definition with_id (v : string) (i : t) : t :=
  mk v (status i) (query i) (duration i) (error i) (steps i).

Definition with_status (v : string) (i : t) : t :=
  mk (id i) v (query i) (duration i) (error i) (steps i).

Definition with_steps (v : option (list Step.t)) (i : t) : t :=
  mk (id i) (status i) (query i) (duration i) (error i) v.
End Info.

(** The reference to an object, and the objects the references stand
    for. *)
Definition Ref := nat.

Definition Heap := Ref → Info.t.

(** A write to the object behind a reference: every holder of the
    reference sees it. *)
Definition heapSet (r : Ref) (v : Info.t) (h : Heap) : Heap :=
  λ r', if bool_decide (r' = r) then v else h r'.

Record Manager := mkManager {
  queryRunners : list (string * Ref);
  changesFired : nat
}.

(** The manager [getInstance] creates on its first call. *)
Definition empty : Manager := mkManager [] 0.

Fixpoint mapSet (key : string) (value : Ref) (m : list (string * Ref))
    : list (string * Ref) :=
  match m with
  | [] => [(key, value)]
  | (k, v) :: m' =>
      if bool_decide (k = key) then (key, value) :: m'
      else (k, v) :: mapSet key value m'
  end.

Fixpoint mapGet (key : string) (m : list (string * Ref)) : option Ref :=
  match m with
  | [] => None
  | (k, v) :: m' => if bool_decide (k = key) then Some v else mapGet key m'
  end.

Definition mapDelete (key : string) (m : list (string * Ref))
    : list (string * Ref) :=
  List.filter (λ entry, bool_decide (entry.1 ≠ key)) m.

(** A new array of the references the map holds. *)
Definition getAll (mgr : Manager) : list Ref :=
  snd <$> queryRunners mgr.

(** The key is the id the object has when the call is made. *)
Definition updateQueryRunner (info : Ref) (h : Heap) (mgr : Manager) : Manager :=
  mkManager (mapSet (Info.id (h info)) info (queryRunners mgr))
    (S (changesFired mgr)).

(** The runner found is the object the map holds: its [steps] property is
    assigned in place, a new array each time.  The map is not written. *)
Definition appendStep (id : string) (step : Step.t) (h : Heap) (mgr : Manager)
    : Heap * Manager :=
  match mapGet id (queryRunners mgr) with
  | Some runner =>
      let steps :=
        match Info.steps (h runner) with
        | Some steps => steps ++ [step]
        | None => [step]
        end in
      (heapSet runner (Info.with_steps (Some steps) (h runner)) h,
       mkManager (queryRunners mgr) (S (changesFired mgr)))
  | None => (h, mgr)
  end.

Definition removeQueryRunner (id : string) (mgr : Manager) : Manager :=
  mkManager (mapDelete id (queryRunners mgr)) (S (changesFired mgr)).

(** What a client can do: call the manager, or write to an object it
    holds ([Assign r f] leaves [f] of its content in the object behind
    [r]).  A sequence of such steps is run on the heap and the manager. *)
Inductive Call :=
| UpdateQueryRunner (info : Ref)
| AppendStep (id : string) (step : Step.t)
| RemoveQueryRunner (id : string)
| Assign (r : Ref) (f : Info.t → Info.t).

Definition call (c : Call) (s : Heap * Manager) : Heap * Manager :=
  match c with
  | UpdateQueryRunner info => (s.1, updateQueryRunner info s.1 s.2)
  | AppendStep id step => appendStep id step s.1 s.2
  | RemoveQueryRunner id => (s.1, removeQueryRunner id s.2)
  | Assign r f => (heapSet r (f (s.1 r)) s.1, s.2)
  end.

Definition calls (cs : list Call) (s : Heap * Manager) : Heap * Manager :=
  fold_left (λ s c, call c s) cs s.

(** The step is no write to the [id] property of an object. *)
Definition keepsId (c : Call) : Prop :=
  match c with
  | Assign _ f => ∀ i, Info.id (f i) = Info.id i
  | _ => True
  end.

(** The ids the objects behind a list of references have. *)
Definition ids (h : Heap) (l : list Ref) : list string :=
  (λ r, Info.id (h r)) <$> l.

(** Two runners that have started, and a step. *)
Definition sampleRunner : Info.t :=
  Info.mk "r1" "Running" "SELECT 1" 0 None None.

Definition sampleHeap : Heap :=
  λ r, match r with
       | O => sampleRunner
       | S _ => Info.mk "r2" "Running" "SELECT 2" 0 None None
       end.

Definition sampleStep : Step.t :=
  Step.mk "connect" "Success" "12:00:00" None.

End QueryRunner.

Section ConnectionConfig.

Set Default Proof Using "Type".

(** Constants and helpers of the extension that live outside this class:
    [Constants.ROOT_GROUP_ID], [Constants.ROOT_GROUP_NAME],
    [LocalizedConstants.SampleServerName], [Utils.isSameProfile],
    [String.prototype.localeCompare] and the sequence of values
    [Utils.generateGuid] hands out. *)
Variables RootGroupId RootGroupName SampleServerName : string.
Variable isSameProfile : Profile.t → Profile.t → bool.
Variable localeCompare : string → string → Z.
Variable generateGuid : nat → string.
(** The number of nested calls the engine's stack admits. *)
Variable stackLimit : nat.

Definition generateGuidM : M string := fun st =>
  Return (generateGuid (nextGuid st))
    (mkStore (globalConnections st) (workspaceConnections st)
       (workspaceFolderConnections st)
       (globalGroups st) (workspaceGroups st) (workspaceFolderGroups st)
       (hasDisplayedMissingIdError st) (S (nextGuid st)) (settingsWrites st)
       (debugLog st)).

(** *** Shared helpers *)

Definition getRootGroup : Group.t :=
  Group.mk (Some RootGroupId) (Some RootGroupName) None.

(** [g.id !== ConnectionConfig.RootGroupId] *)
Definition notRoot (g : Group.t) : bool :=
  bool_decide (Group.id g ≠ Some RootGroupId).

Definition getGroups (location : ConfigTarget) : M (list Group.t) :=
  groups ← gets (fun st => List.filter notRoot (getGroupsFromSettings location st));
  mret (getRootGroup :: groups).

Definition getGroupById (id : string) : M (option Group.t) :=
  if bool_decide (id = RootGroupId) then mret (Some getRootGroup)
  else
    connGroups ← gets (getGroupsFromSettings Global);
    mret (List.find (fun g => bool_decide (Group.id g = Some id)) connGroups).

(** The name [compareConnectionProfile] sorts by. *)
Definition displayKey (conn : Profile.t) : jsval :=
  if truthy (Profile.profileName conn) then Profile.profileName conn
  else if truthy (Profile.server conn) then Profile.server conn
  else Profile.connectionString conn.

(** [nameA.localeCompare(nameB)]: a [TypeError] ([None]) when [nameA] is
    undefined; an undefined [nameB] is converted to a string. *)
Definition compareConnectionProfile (connA connB : Profile.t) : option Z :=
  match displayKey connA with
  | Some nameA => Some (localeCompare nameA (toString (displayKey connB)))
  | None => None
  end.

(** [Array.prototype.sort] with [compareConnectionProfile]: a stable sort.
    The language leaves the order of the comparator calls to the engine.
    As V8 does when it sorts by insertion, the model takes the elements in
    the order of the array and inserts each into the sorted elements before
    it, calling the comparator with the element inserted, the later one in
    the array, as its first argument and an earlier one as its second.  The
    element goes before the first element it compares below, after those
    it ties with.  So a profile without display key raises the [TypeError]
    wherever it stands but at the head of the array. *)
Fixpoint insertSorted (x : Profile.t) (l : list Profile.t)
    : option (list Profile.t) :=
  match l with
  | [] => Some [x]
  | y :: l' =>
      match compareConnectionProfile x y with
      | None => None
      | Some c =>
          if (c <? 0)%Z then Some (x :: l)
          else cons y <$> insertSorted x l'
      end
  end.

Fixpoint sortInto (sorted l : list Profile.t) : option (list Profile.t) :=
  match l with
  | [] => Some sorted
  | x :: l' => insertSorted x sorted ≫= λ sorted', sortInto sorted' l'
  end.

Definition sortProfiles (l : list Profile.t) : option (list Profile.t) :=
  sortInto [] l.

Definition sortM (l : list Profile.t) : M (list Profile.t) :=
  match sortProfiles l with
  | Some l' => mret l'
  | None => throw TypeError
  end.

(** Modelled from the spec: [ConnectionProfile.addIdIfMissing], which is
    not part of this file; it "generates an id if absent". *)
Definition addIdIfMissing (profile : Profile.t) : M Profile.t :=
  if bool_decide (Profile.id profile = None) then
    guid ← generateGuidM;
    mret (Profile.with_id (Some guid) profile)
  else mret profile.

(** Returns whether the profile was modified, and the profile as the
    caller sees it afterwards. *)
Definition populateMissingConnectionIds (profile : Profile.t)
    : M (bool * Profile.t) :=
  let noGroup := bool_decide (Profile.groupId profile = None) in
  let profile :=
    if noGroup then Profile.with_groupId (Some RootGroupId) profile
    else profile in
  if bool_decide (Profile.id profile = None) then
    profile ← addIdIfMissing profile;
    mret (true, profile)
  else mret (noGroup, profile).


(** *** Connection profiles *)

(** The filter of [getConnections] on connection information: a
    connection string, or a server name other than the sample's. *)
Definition hasConnectionInfo (conn : Profile.t) : bool :=
  truthy (Profile.connectionString conn)
  || (truthy (Profile.server conn)
      && bool_decide (Profile.server conn ≠ Some SampleServerName)).

Definition getConnections (alsoGetFromWorkspace : bool) : M (list Profile.t) :=
  userProfiles ← gets (getConnectionsFromSettings Global);
  userProfiles ← sortM userProfiles;
  profiles ←
    (if alsoGetFromWorkspace then
       workspaceProfiles ← gets (getConnectionsFromSettings Workspace);
       warned ← gets hasDisplayedMissingIdError;
       let missingIdConns :=
         if (warned : bool) then []
         else List.filter (fun profile => negb (truthy (Profile.id profile)))
                workspaceProfiles in
       let workspaceProfiles :=
         List.filter (fun profile => truthy (Profile.id profile))
           workspaceProfiles in
       when (bool_decide (0 < List.length missingIdConns)) setDisplayedMissingIdError;;
       workspaceProfiles ← sortM workspaceProfiles;
       mret (userProfiles ++ workspaceProfiles)
     else mret userProfiles);
  let profiles :=
    if bool_decide (0 < List.length profiles)
    then List.filter hasConnectionInfo profiles
    else profiles in
  groups ← getGroups Global;
  let groupIds : gset jsval := list_to_set (Group.id <$> groups) in
  mret (List.filter (fun p => bool_decide (Profile.groupId p ∈ groupIds)) profiles).

Definition getConnectionById (id : string) : M (option Profile.t) :=
  profiles ← getConnections true;
  mret (List.find (fun profile => bool_decide (Profile.id profile = Some id))
          profiles).

Definition targetOfScope (scope : Scope) : ConfigTarget :=
  match scope with
  | user => Global
  | workspace => Workspace
  end.

(** The source returns nothing and mutates its argument; the value
    returned here is the argument as the caller sees it afterwards. *)
Definition addConnection (profile : Profile.t) (scope : Scope) : M Profile.t :=
  '(_, profile) ← populateMissingConnectionIds profile;
  let configTarget := targetOfScope scope in
  profiles ← gets (getConnectionsFromSettings configTarget);
  let profiles :=
    List.filter (fun value => negb (isSameProfile value profile)) profiles in
  writeConnectionsToSettings (profiles ++ [profile]) configTarget;;
  mret profile.

(** The loop runs from the last index down, splicing out each match; the
    pair is [found] and the array after the loop. *)
Fixpoint removeConnectionHelper (toRemove : Profile.t)
    (profiles : list Profile.t) : bool * list Profile.t :=
  match profiles with
  | [] => (false, [])
  | p :: rest =>
      let '(found, rest) := removeConnectionHelper toRemove rest in
      if isSameProfile p toRemove then (true, rest) else (found, p :: rest)
  end.

Definition removeConnection (profile : Profile.t) : M bool :=
  profiles ← getConnections false;
  let '(found, profiles) := removeConnectionHelper profile profiles in
  when found (writeConnectionsToSettings profiles Global);;
  mret found.

(** [Array.prototype.findIndex]; [None] stands for [-1]. *)
Fixpoint findIndex {A} (f : A → bool) (l : list A) : option nat :=
  match l with
  | [] => None
  | x :: l' => if f x then Some 0 else S <$> findIndex f l'
  end.

Definition updateConnection (updatedProfile : Profile.t) : M unit :=
  profiles ← getConnections false;
  match findIndex (fun p => bool_decide (Profile.id p = Profile.id updatedProfile))
          profiles with
  | None => throw (ConnectionNotFound (Profile.id updatedProfile))
  | Some index =>
      writeConnectionsToSettings (<[index := updatedProfile]> profiles) Global
  end.

(** *** Connection groups *)

Definition addGroup (group : Group.t) (scope : Scope) : M unit :=
  if bool_decide (Group.id group = Some RootGroupId) then mret tt
  else
    group ← (if negb (truthy (Group.id group)) then
               guid ← generateGuidM;
               mret (Group.with_id (Some guid) group)
             else mret group);
    let group :=
      if negb (truthy (Group.parentId group))
      then Group.with_parentId (Some RootGroupId) group
      else group in
    let configTarget := targetOfScope scope in
    groups ← gets (fun st => List.filter notRoot (getGroupsFromSettings configTarget st));
    writeConnectionGroupsToSettings (groups ++ [group]) configTarget.

(** The body of the [for] loop of [getAllSubgroupIds], [rec] being the
    recursive call. *)
Fixpoint collectSubgroups (rec : jsval → option (gset jsval))
    (groupId : jsval) (groups : list Group.t) (subgroupIds : gset jsval)
    : option (gset jsval) :=
  match groups with
  | [] => Some subgroupIds
  | group :: rest =>
      if bool_decide (Group.parentId group = groupId) then
        match rec (Group.id group) with
        | None => None
        | Some childSubgroups =>
            collectSubgroups rec groupId rest (subgroupIds ∪ childSubgroups)
        end
      else collectSubgroups rec groupId rest subgroupIds
  end.

(** The recursive closure of [removeGroup].  It has no cycle guard: the
    recursion is as deep as the chain of parents is long, and the call
    stack is finite.  [depth] is the number of frames still available;
    [None] is the [RangeError] of an exhausted stack. *)
Fixpoint getAllSubgroupIds (depth : nat) (groups : list Group.t)
    (groupId : jsval) : option (gset jsval) :=
  match depth with
  | O => None
  | S depth' =>
      collectSubgroups (getAllSubgroupIds depth' groups) groupId groups
        {[ groupId ]}
  end.

Definition reparentConnection (id : string) (conn : Profile.t) : Profile.t :=
  if bool_decide (Profile.groupId conn = Some id)
  then Profile.with_groupId (Group.id getRootGroup) conn
  else conn.

Definition reparentGroup (id : string) (g : Group.t) : Group.t :=
  if bool_decide (Group.parentId g = Some id)
  then Group.with_parentId (Group.id getRootGroup) g
  else g.

Definition removeGroup (id : string) (contentAction : ContentAction) : M bool :=
  connections ← gets (getConnectionsFromSettings Global);
  groups ← gets (getGroupsFromSettings Global);
  if bool_decide (id = RootGroupId) then mret false
  else
    '(connectionModified, remainingConnections, remainingGroups) ←
      match contentAction with
      | delete =>
          match getAllSubgroupIds stackLimit groups (Some id) with
          | None => throw RangeError
          | Some groupsToRemove =>
              mret
                (existsb (fun conn => bool_decide (Profile.groupId conn ∈ groupsToRemove))
                   connections,
                 List.filter
                   (fun conn => bool_decide (Profile.groupId conn ∉ groupsToRemove))
                   connections,
                 List.filter
                   (fun g => bool_decide (Group.id g ∉ groupsToRemove) && notRoot g)
                   groups)
          end
      | move =>
          mret
            (existsb (fun conn => bool_decide (Profile.groupId conn = Some id))
               connections,
             reparentConnection id <$> connections,
             reparentGroup id <$>
               List.filter
                 (fun g => bool_decide (Group.id g ≠ Some id) && notRoot g)
                 groups)
      end;
    if bool_decide (List.length remainingGroups = List.length groups) then mret false
    else
      when (connectionModified : bool)
        (writeConnectionsToSettings remainingConnections Global);;
      writeConnectionGroupsToSettings remainingGroups Global;;
      mret true.

Definition updateGroup (updatedGroup : Group.t) : M unit :=
  if bool_decide (Group.id updatedGroup = Some RootGroupId) then mret tt
  else
    groups ← gets (fun st => List.filter notRoot (getGroupsFromSettings Global st));
    match findIndex (fun g => bool_decide (Group.id g = Group.id updatedGroup))
            groups with
    | None => throw (GroupNotFound (Group.id updatedGroup))
    | Some index =>
        writeConnectionGroupsToSettings (<[index := updatedGroup]> groups) Global
    end.

(** *** Initialization: the integrity / migration engine *)

(** Legacy ROOT groups: named like ROOT but without the hard-coded id. *)
Definition isLegacyRoot (g : Group.t) : bool :=
  bool_decide (Group.name g = Some RootGroupName)
  && bool_decide (Group.id g ≠ Some RootGroupId).

(** One iteration of the loop of [assignConnectionGroupMissingIds]. *)
Definition repairGroup (legacyRootIds : list jsval)
    (validGroupIds : gset jsval) (group : Group.t) : M (bool * Group.t) :=
  let migrate := bool_decide (Group.parentId group ∈ legacyRootIds) in
  let group :=
    if migrate then Group.with_parentId (Some RootGroupId) group else group in
  when migrate (logDebug (MigratedGroup group));;
  let orphan :=
    truthy (Group.parentId group)
    && bool_decide (Group.parentId group ∉ validGroupIds) in
  let group :=
    if orphan then Group.with_parentId (Some RootGroupId) group else group in
  when orphan (logDebug (ReparentedOrphanGroup group));;
  let noId := negb (truthy (Group.id group)) in
  group ← (if noId then
             guid ← generateGuidM;
             logDebug (AddedGroupId group);;
             mret (Group.with_id (Some guid) group)
           else mret group);
  let noParent := negb (truthy (Group.parentId group)) in
  let group :=
    if noParent then Group.with_parentId (Some RootGroupId) group else group in
  when noParent (logDebug (AddedGroupParentId group));;
  mret (migrate || orphan || noId || noParent, group).

Fixpoint repairGroups (legacyRootIds : list jsval)
    (validGroupIds : gset jsval) (groups : list Group.t)
    : M (bool * list Group.t) :=
  match groups with
  | [] => mret (false, [])
  | group :: rest =>
      '(changed, group) ← repairGroup legacyRootIds validGroupIds group;
      '(madeChanges, rest) ← repairGroups legacyRootIds validGroupIds rest;
      mret (changed || madeChanges, group :: rest)
  end.

Definition assignConnectionGroupMissingIds : M unit :=
  groups ← gets (fun st => List.filter notRoot (getGroupsFromSettings Global st));
  legacyRootGroups ←
    gets (fun st => List.filter isLegacyRoot (getGroupsFromSettings Global st));
  let legacyRootIds := Group.id <$> legacyRootGroups in
  allGroups ← gets (fun st => List.filter notRoot (getGroupsFromSettings Global st));
  let validGroupIds : gset jsval :=
    {[ Some RootGroupId ]} ∪ list_to_set (Group.id <$> allGroups) in
  '(madeChanges, groups) ← repairGroups legacyRootIds validGroupIds groups;
  if (madeChanges : bool) then
    logDebug (WritingGroups (List.length groups));;
    writeConnectionGroupsToSettings groups Global
  else mret tt.

(** One iteration of the loop of [assignConnectionMissingIds]. *)
Definition repairProfile (legacyRootIds : list jsval)
    (validGroupIds : gset jsval) (profile : Profile.t)
    : M (bool * Profile.t) :=
  let migrate := bool_decide (Profile.groupId profile ∈ legacyRootIds) in
  let profile :=
    if migrate then Profile.with_groupId (Some RootGroupId) profile
    else profile in
  when migrate (logDebug (MigratedConnection profile));;
  let orphan :=
    truthy (Profile.groupId profile)
    && bool_decide (Profile.groupId profile ∉ validGroupIds) in
  let profile :=
    if orphan then Profile.with_groupId (Some RootGroupId) profile
    else profile in
  when orphan (logDebug (ReparentedOrphanConnection profile));;
  '(populated, profile) ← populateMissingConnectionIds profile;
  when populated (logDebug (AddedConnectionIds profile));;
  mret (migrate || orphan || populated, profile).

Fixpoint repairProfiles (legacyRootIds : list jsval)
    (validGroupIds : gset jsval) (profiles : list Profile.t)
    : M (bool * list Profile.t) :=
  match profiles with
  | [] => mret (false, [])
  | profile :: rest =>
      '(changed, profile) ← repairProfile legacyRootIds validGroupIds profile;
      '(madeChanges, rest) ← repairProfiles legacyRootIds validGroupIds rest;
      mret (changed || madeChanges, profile :: rest)
  end.

Definition assignConnectionMissingIds : M unit :=
  profiles ← gets (getConnectionsFromSettings Global);
  legacyRootGroups ←
    gets (fun st => List.filter isLegacyRoot (getGroupsFromSettings Global st));
  let legacyRootIds := Group.id <$> legacyRootGroups in
  let validGroupIds : gset jsval :=
    {[ Some RootGroupId ]} ∪ list_to_set (Profile.groupId <$> profiles) in
  '(madeChanges, profiles) ← repairProfiles legacyRootIds validGroupIds profiles;
  if (madeChanges : bool) then
    logDebug (WritingProfiles (List.length profiles));;
    writeConnectionsToSettings profiles Global
  else mret tt.

Definition initialize : M unit :=
  assignConnectionGroupMissingIds;;
  assignConnectionMissingIds.

(** ** Vocabulary of the statements *)

(** The profiles [getConnections] keeps once they are read and sorted. *)
Definition visible (st : Store) (p : Profile.t) : bool :=
  hasConnectionInfo p
  && bool_decide
       (Profile.groupId p
        ∈ (list_to_set (Group.id <$>
             getRootGroup :: List.filter notRoot (globalGroups st)) : gset jsval)).

(** The store after the one-time warning of [getConnections] about
    workspace profiles without an id. *)
Definition warnMissingIds (st : Store) : Store :=
  let missingIdConns :=
    if hasDisplayedMissingIdError st then []
    else List.filter (fun profile => negb (truthy (Profile.id profile)))
           (getConnectionsFromSettings Workspace st) in
  if bool_decide (0 < List.length missingIdConns)
  then mkStore (globalConnections st) (workspaceConnections st)
         (workspaceFolderConnections st)
         (globalGroups st) (workspaceGroups st) (workspaceFolderGroups st)
         true (nextGuid st) (settingsWrites st) (debugLog st)
  else st.

(** The order [compareConnectionProfile] sorts by: the display keys,
    under [localeCompare]. *)
Definition keyLe (a b : Profile.t) : Prop :=
  (localeCompare (toString (displayKey a)) (toString (displayKey b)) ≤ 0)%Z.

(** The derived display key in the words of the specification:
    profileName if set, else server, else connectionString.  A property is
    set when it is present and not the empty string. *)
Definition isSet (v : jsval) : bool :=
  bool_decide (v ≠ None ∧ v ≠ Some "").

Definition specDisplayKey (p : Profile.t) : jsval :=
  match isSet (Profile.profileName p), isSet (Profile.server p) with
  | true, _ => Profile.profileName p
  | false, true => Profile.server p
  | false, false => Profile.connectionString p
  end.

(** Sorted by the derived display key under locale comparison: both
    profiles have a key, and the key of the first does not compare above
    the key of the second. *)
Definition bySpecDisplayKey (a b : Profile.t) : Prop :=
  ∃ ka kb : string,
    specDisplayKey a = Some ka
    ∧ specDisplayKey b = Some kb
    ∧ (localeCompare ka kb ≤ 0)%Z.

(** The group id the profile pass leaves on a profile: ROOT for a
    legacy-root reference and for a missing field, the stored one
    otherwise. *)
Definition repairedGroupId (legacyRootIds : list jsval) (p : Profile.t) : jsval :=
  if bool_decide (Profile.groupId p ∈ legacyRootIds) then Some RootGroupId
  else if bool_decide (Profile.groupId p = None) then Some RootGroupId
  else Profile.groupId p.

Definition isOrphanConnectionEvent (ev : DebugEvent) : bool :=
  match ev with
  | ReparentedOrphanConnection _ => true
  | _ => false
  end.

Definition legacyRootIdsOf (groups : list Group.t) : list jsval :=
  Group.id <$> List.filter isLegacyRoot groups.

(** The ids the group pass accepts as parents. *)
Definition validGroupIdsOf (groups : list Group.t) : gset jsval :=
  {[ Some RootGroupId ]} ∪ list_to_set (Group.id <$> List.filter notRoot groups).

(** A group the group pass has nothing to do on. *)
Definition groupRepaired (legacyRootIds : list jsval)
    (validGroupIds : gset jsval) (g : Group.t) : Prop :=
  (Group.parentId g ∉ legacyRootIds)
  ∧ truthy (Group.parentId g) = true
  ∧ Group.parentId g ∈ validGroupIds
  ∧ truthy (Group.id g) = true.

Definition groupsRepaired (groups : list Group.t) : Prop :=
  Forall (groupRepaired (legacyRootIdsOf groups) (validGroupIdsOf groups))
    (List.filter notRoot groups).

(** A profile the profile pass has nothing to do on. *)
Definition profileRepaired (legacyRootIds : list jsval) (p : Profile.t) : Prop :=
  (Profile.groupId p ∉ legacyRootIds)
  ∧ Profile.groupId p ≠ None
  ∧ Profile.id p ≠ None.

(** What one iteration of the group pass makes of a group. *)
Definition groupRepair (legacyRootIds : list jsval)
    (validGroupIds : gset jsval) (g g' : Group.t) : Prop :=
  Group.name g' = Group.name g
  ∧ (if truthy (Group.id g) then Group.id g' = Group.id g
     else ∃ k, Group.id g' = Some (generateGuid k))
  ∧ (Group.parentId g' = Some RootGroupId
     ∨ Group.parentId g' = Group.parentId g)
  ∧ groupRepaired legacyRootIds validGroupIds g'.

(** [inSubtree groups root x]: [x] is [root] or the id of a transitive
    descendant group of [root], following [parentId] among [groups]. *)
Inductive inSubtree (groups : list Group.t) (root : jsval) : jsval → Prop :=
| inSubtree_root : inSubtree groups root root
| inSubtree_child (g : Group.t) :
    g ∈ groups →
    inSubtree groups root (Group.parentId g) →
    inSubtree groups root (Group.id g).

(** A group reference that resolves: the ROOT id, or the id of a stored
    group. *)
Definition resolves (groups : list Group.t) (v : jsval) : Prop :=
  v = Some RootGroupId ∨ ∃ g, g ∈ groups ∧ Group.id g = v.

(** What initialization keeps of a stored group [g] in the group [g'] it
    leaves in its place, [legacyRootIds] being the ids of the legacy ROOT
    groups stored before. *)
Definition groupKept (legacyRootIds : list jsval) (g g' : Group.t) : Prop :=
  Group.name g' = Group.name g
  ∧ (truthy (Group.id g) = true → Group.id g' = Group.id g)
  ∧ (Group.parentId g' = Some RootGroupId
     ∨ Group.parentId g' = Group.parentId g)
  ∧ (Group.parentId g ∈ legacyRootIds → Group.parentId g' = Some RootGroupId).

(** ** Properties *)

Ltac unfold_M :=
  unfold mbind, M_bind, mret, M_ret, gets, when, throw.

(** *** Operations on the reserved ROOT id *)

(** C4: every operation invoked on the reserved ROOT id is absorbed:
    [removeGroup] fulfils with [false] for both content actions,
    [addGroup] and [updateGroup] of a group carrying the ROOT id fulfil;
    none of them rejects, and each leaves the whole store, hence the
    settings and the count of settings writes, as it found it. *)
Theorem root_operations_absorbed :
  ∀ (st : Store) (contentAction : ContentAction) (scope : Scope)
    (name parentId : jsval),
    removeGroup RootGroupId contentAction st = Return false st
    ∧ addGroup (Group.mk (Some RootGroupId) name parentId) scope st
      = Return tt st
    ∧ updateGroup (Group.mk (Some RootGroupId) name parentId) st
      = Return tt st.
Proof.
  intros st contentAction scope name parentId.
  unfold removeGroup, addGroup, updateGroup. unfold_M. simpl.
  rewrite !bool_decide_eq_true_2 by reflexivity.
  repeat split; reflexivity.
Qed.

(** *** Reading the connections *)

Lemma sortM_inv (l l' : list Profile.t) (st st' : Store) :
  sortM l st = Return l' st' → sortProfiles l = Some l' ∧ st' = st.
Proof.
  unfold sortM. destruct (sortProfiles l); unfold_M; intros H; inversion H; auto.
Qed.

Lemma filter_filter_andb {A} (f g : A → bool) (l : list A) :
  List.filter g (List.filter f l) = List.filter (fun x => f x && g x) l.
Proof.
  induction l as [|x l IH]; simpl; [reflexivity|].
  destruct (f x); simpl; [destruct (g x)|]; rewrite IH; reflexivity.
Qed.

Lemma getConnections_global (st : Store) :
  getConnections false st =
  match sortProfiles (globalConnections st) with
  | Some l => Return (List.filter (visible st) l) st
  | None => Throw TypeError st
  end.
Proof.
  unfold getConnections, getGroups. unfold_M. simpl.
  unfold sortM. destruct (sortProfiles (globalConnections st)) as [l|];
    unfold_M; [|reflexivity].
  f_equal. case_bool_decide as Hlen.
  - rewrite filter_filter_andb. reflexivity.
  - destruct l; [reflexivity | simpl in Hlen; lia].
Qed.

Lemma findIndex_None {A} (f : A → bool) (l : list A) :
  (∀ x, x ∈ l → f x = false) → findIndex f l = None.
Proof.
  induction l as [|x l IH]; intros H; simpl; [reflexivity|].
  rewrite (H x) by constructor.
  rewrite IH; [reflexivity|]. intros y Hy. apply H. by constructor.
Qed.

(** C6: when no profile returned for the global scope carries the id of
    the argument, [updateConnection] rejects with the not-found error and
    leaves the whole store (the stored arrays and the count of settings
    writes) as it was. *)
Theorem updateConnection_not_found :
  ∀ (st st0 : Store) (updatedProfile : Profile.t) (profiles : list Profile.t),
    getConnections false st = Return profiles st0 →
    (∀ p, p ∈ profiles → Profile.id p ≠ Profile.id updatedProfile) →
    updateConnection updatedProfile st
    = Throw (ConnectionNotFound (Profile.id updatedProfile)) st.
Proof.
  intros st st0 updatedProfile profiles Hget Hfresh.
  unfold updateConnection. unfold mbind, M_bind.
  rewrite getConnections_global in Hget |- *.
  destruct (sortProfiles (globalConnections st)) as [l|]; [|discriminate].
  inversion Hget; subst. rewrite findIndex_None; [reflexivity|].
  intros p Hp. apply bool_decide_eq_false_2. by apply Hfresh.
Qed.

(** *** The integrity engine: profiles *)

Lemma withRepairState_id (st : Store) :
  withRepairState (nextGuid st) (debugLog st) st = st.
Proof. by destruct st. Qed.

Lemma withRepairState_twice (n n' : nat) (l l' : list DebugEvent) (st : Store) :
  withRepairState n l (withRepairState n' l' st) = withRepairState n l st.
Proof. reflexivity. Qed.

Ltac solve_log :=
  rewrite <- ?app_assoc; first [reflexivity | symmetry; apply app_nil_r].

Lemma repairProfile_spec (legacyRootIds : list jsval) (validGroupIds : gset jsval)
    (p : Profile.t) (st : Store) :
  Some RootGroupId ∈ validGroupIds →
  Profile.groupId p ∈ validGroupIds →
  ∃ changed p' st' evs,
    repairProfile legacyRootIds validGroupIds p st = Return (changed, p') st'
    ∧ st' = withRepairState (nextGuid st') (debugLog st') st
    ∧ debugLog st' = debugLog st ++ evs
    ∧ Forall (λ ev, isOrphanConnectionEvent ev = false) evs
    ∧ Profile.groupId p' = repairedGroupId legacyRootIds p
    ∧ Profile.id p' ≠ None
    ∧ (changed = false → p' = p ∧ st' = st).
Proof.
  intros Hroot Hown.
  unfold repairProfile, populateMissingConnectionIds, addIdIfMissing,
    repairedGroupId, logDebug, generateGuidM, truthy.
  unfold_M.
  destruct p as [i g pn sv cs ex], st; simpl in *.
  destruct g as [g|], i as [i|]; simpl;
    repeat (case_bool_decide; simpl); try done;
    do 4 eexists; (split; [reflexivity|]); simpl;
    (split; [reflexivity|]); (split; [solve_log|]);
    (split; [repeat constructor|]); (split; [reflexivity|]);
    (split; [discriminate|]); try discriminate; auto.
Qed.

Lemma repairProfiles_spec (legacyRootIds : list jsval) (validGroupIds : gset jsval)
    (ps : list Profile.t) :
  Some RootGroupId ∈ validGroupIds →
  (∀ p, p ∈ ps → Profile.groupId p ∈ validGroupIds) →
  ∀ st, ∃ changed ps' st' evs,
    repairProfiles legacyRootIds validGroupIds ps st = Return (changed, ps') st'
    ∧ st' = withRepairState (nextGuid st') (debugLog st') st
    ∧ debugLog st' = debugLog st ++ evs
    ∧ Forall (λ ev, isOrphanConnectionEvent ev = false) evs
    ∧ Forall2 (λ p p', Profile.groupId p' = repairedGroupId legacyRootIds p
                       ∧ Profile.id p' ≠ None) ps ps'
    ∧ (changed = false → ps' = ps ∧ st' = st).
Proof.
  intros Hroot. induction ps as [|p ps IH]; intros Hown st.
  - exists false, [], st, []. simpl. unfold_M.
    rewrite withRepairState_id, app_nil_r. repeat split; constructor.
  - destruct (repairProfile_spec legacyRootIds validGroupIds p st Hroot)
      as (c & p' & st1 & evs1 & Hrun1 & Hst1 & Hlog1 & Hev1 & Hg1 & Hi1 & Hsame1).
    { apply Hown. constructor. }
    destruct (IH (λ q Hq, Hown q (list_elem_of_further _ _ _ Hq)) st1)
      as (cs & ps' & st2 & evs2 & Hrun2 & Hst2 & Hlog2 & Hev2 & Hall & Hsame2).
    exists (c || cs), (p' :: ps'), st2, (evs1 ++ evs2).
    split.
    { simpl. unfold mbind, M_bind. rewrite Hrun1, Hrun2. reflexivity. }
    split. { rewrite Hst2, Hst1 at 1. reflexivity. }
    split. { rewrite Hlog2, Hlog1, app_assoc. reflexivity. }
    split. { apply Forall_app. auto. }
    split. { constructor; auto. }
    intros Hc. apply orb_false_elim in Hc as [Hc Hcs].
    destruct (Hsame1 Hc) as [-> ->]. destruct (Hsame2 Hcs) as [-> ->]. auto.
Qed.

Lemma assignConnectionMissingIds_spec (st : Store) :
  ∃ (st' : Store) (evs : list DebugEvent),
    assignConnectionMissingIds st = Return tt st'
    ∧ debugLog st' = debugLog st ++ evs
    ∧ Forall (λ ev, isOrphanConnectionEvent ev = false) evs
    ∧ Forall2
        (λ p p', Profile.groupId p'
                 = repairedGroupId (legacyRootIdsOf (globalGroups st)) p
                 ∧ Profile.id p' ≠ None)
        (globalConnections st) (globalConnections st')
    ∧ globalGroups st' = globalGroups st.
Proof.
  unfold assignConnectionMissingIds.
  unfold mbind at 1 2, M_bind at 1 2, gets. simpl.
  set (valid := ({[Some RootGroupId]}
                 ∪ list_to_set (Profile.groupId <$> globalConnections st)
                 : gset jsval)).
  destruct (repairProfiles_spec (legacyRootIdsOf (globalGroups st)) valid
              (globalConnections st)) with (st := st)
    as (c & ps' & st1 & evs & Hrun & Hst1 & Hlog & Hev & Hall & Hsame).
  { apply elem_of_union_l, elem_of_singleton. reflexivity. }
  { intros p Hp. apply elem_of_union_r, elem_of_list_to_set.
    apply list_elem_of_fmap. eauto. }
  fold (legacyRootIdsOf (globalGroups st)).
  unfold mbind, M_bind. rewrite Hrun.
  destruct c.
  - eexists _, (evs ++ [WritingProfiles (List.length ps')]).
    split; [reflexivity|]. simpl.
    split. { rewrite Hlog, app_assoc. reflexivity. }
    split. { apply Forall_app. split; [done | by repeat constructor]. }
    split; [done | by rewrite Hst1].
  - destruct (Hsame eq_refl) as [-> ->].
    exists st, []. unfold_M. rewrite app_nil_r.
    repeat split; [constructor | done].
Qed.

(** C9: the orphan-repair branch of the profile pass never runs.  The
    pass fulfils on every store, the debug events it appends contain no
    "re-parented orphaned connection" event, and the group id it leaves
    on each stored profile is ROOT for a legacy-root reference, ROOT for
    a missing field, and the stored group id otherwise. *)
Theorem orphan_repair_unreachable :
  ∀ st : Store, ∃ (st' : Store) (evs : list DebugEvent),
    assignConnectionMissingIds st = Return tt st'
    ∧ debugLog st' = debugLog st ++ evs
    ∧ Forall (λ ev, isOrphanConnectionEvent ev = false) evs
    ∧ Forall2
        (λ p p', Profile.groupId p'
                 = repairedGroupId (legacyRootIdsOf (globalGroups st)) p)
        (globalConnections st) (globalConnections st').
Proof.
  intros st.
  destruct (assignConnectionMissingIds_spec st)
    as (st' & evs & Hrun & Hlog & Hev & Hall & _).
  exists st', evs. repeat split; try done.
  eapply Forall2_impl; [exact Hall|]. by intros p p' [? _].
Qed.

Lemma repairProfile_stable (legacyRootIds : list jsval) (validGroupIds : gset jsval)
    (p : Profile.t) (st : Store) :
  Profile.groupId p ∈ validGroupIds →
  profileRepaired legacyRootIds p →
  repairProfile legacyRootIds validGroupIds p st = Return (false, p) st.
Proof.
  intros Hown (Hleg & Hg & Hi).
  unfold repairProfile, populateMissingConnectionIds. unfold_M.
  destruct p as [i g pn sv cs ex]; simpl in *.
  rewrite (bool_decide_eq_false_2 _ Hleg). simpl.
  rewrite (bool_decide_eq_false_2 (g ∉ validGroupIds))
    by (intros H; by apply H).
  rewrite andb_false_r. simpl.
  rewrite (bool_decide_eq_false_2 _ Hg). simpl.
  rewrite (bool_decide_eq_false_2 _ Hi). reflexivity.
Qed.

Lemma repairProfiles_stable (legacyRootIds : list jsval) (validGroupIds : gset jsval)
    (ps : list Profile.t) (st : Store) :
  (∀ p, p ∈ ps → Profile.groupId p ∈ validGroupIds) →
  Forall (profileRepaired legacyRootIds) ps →
  repairProfiles legacyRootIds validGroupIds ps st = Return (false, ps) st.
Proof.
  intros Hown H. induction H as [|p ps Hp _ IH]; simpl; [reflexivity|].
  unfold mbind, M_bind.
  rewrite (repairProfile_stable _ _ _ _ (Hown p (list_elem_of_here _ _)) Hp).
  rewrite IH; [reflexivity|].
  intros q Hq. apply Hown. by constructor.
Qed.

(** The profile pass run on profiles it has nothing to do on: no write,
    no GUID, no debug event. *)
Lemma assignConnectionMissingIds_stable (st : Store) :
  Forall (profileRepaired (legacyRootIdsOf (globalGroups st)))
    (globalConnections st) →
  assignConnectionMissingIds st = Return tt st.
Proof.
  intros H. unfold assignConnectionMissingIds.
  unfold mbind at 1 2, M_bind at 1 2, gets. simpl.
  unfold mbind, M_bind. fold (legacyRootIdsOf (globalGroups st)).
  rewrite repairProfiles_stable; [reflexivity | | exact H].
  intros p Hp. apply elem_of_union_r, elem_of_list_to_set.
  apply list_elem_of_fmap. eauto.
Qed.

(** *** The integrity engine: groups *)

Lemma elem_of_List_filter {A} (f : A → bool) (l : list A) (x : A) :
  x ∈ List.filter f l ↔ x ∈ l ∧ f x = true.
Proof. rewrite !list_elem_of_In. apply filter_In. Qed.

Lemma Forall2_elem_of_r {A B} (R : A → B → Prop) l l' y :
  Forall2 R l l' → y ∈ l' → ∃ x, x ∈ l ∧ R x y.
Proof.
  induction 1 as [|x y' l l' HR _ IH]; intros Hy.
  - by apply elem_of_nil in Hy.
  - apply elem_of_cons in Hy as [->|Hy].
    + exists x. split; [constructor | done].
    + destruct (IH Hy) as (x' & ? & ?). exists x'. split; [by constructor | done].
Qed.

Lemma Forall2_elem_of_l {A B} (R : A → B → Prop) l l' x :
  Forall2 R l l' → x ∈ l → ∃ y, y ∈ l' ∧ R x y.
Proof.
  induction 1 as [|x' y l l' HR _ IH]; intros Hx.
  - by apply elem_of_nil in Hx.
  - apply elem_of_cons in Hx as [->|Hx].
    + exists y. split; [constructor | done].
    + destruct (IH Hx) as (y' & ? & ?). exists y'. split; [by constructor | done].
Qed.

Lemma repairGroup_stable (legacyRootIds : list jsval)
    (validGroupIds : gset jsval) (g : Group.t) (st : Store) :
  groupRepaired legacyRootIds validGroupIds g →
  repairGroup legacyRootIds validGroupIds g st = Return (false, g) st.
Proof.
  intros (Hleg & Hp & Hvalid & Hid).
  unfold repairGroup, logDebug, generateGuidM. unfold_M.
  destruct g as [i n p]; simpl in *.
  rewrite (bool_decide_eq_false_2 _ Hleg). simpl.
  rewrite Hp. simpl.
  rewrite bool_decide_eq_false_2 by (intros H; by apply H). simpl.
  rewrite Hid. simpl. rewrite Hp. reflexivity.
Qed.

Lemma repairGroup_spec (legacyRootIds : list jsval)
    (validGroupIds : gset jsval) (g : Group.t) (st : Store) :
  RootGroupId ≠ "" →
  (∀ k, generateGuid k ≠ "") →
  Some RootGroupId ∈ validGroupIds →
  Some RootGroupId ∉ legacyRootIds →
  ∃ changed g' st',
    repairGroup legacyRootIds validGroupIds g st = Return (changed, g') st'
    ∧ st' = withRepairState (nextGuid st') (debugLog st') st
    ∧ groupRepair legacyRootIds validGroupIds g g'
    ∧ (changed = false → g' = g ∧ st' = st).
Proof.
  intros Hroot Hguid Hvalid Hleg.
  unfold repairGroup, groupRepair, groupRepaired, logDebug, generateGuidM, truthy.
  unfold_M.
  destruct g as [i n p], st; simpl in *.
  destruct p as [p|], i as [i|]; simpl;
    repeat (case_bool_decide; simpl); try done;
    do 3 eexists; (split; [reflexivity|]); simpl;
    (split; [reflexivity|]).
  all: rewrite ?bool_decide_eq_true_2 by (first [done | apply Hguid]).
  all: try (split; [|intros; try discriminate; auto]).
  all: repeat split; eauto.
  all: try by apply bool_decide_eq_true_2.
Qed.

Lemma repairGroups_stable (legacyRootIds : list jsval)
    (validGroupIds : gset jsval) (gs : list Group.t) (st : Store) :
  Forall (groupRepaired legacyRootIds validGroupIds) gs →
  repairGroups legacyRootIds validGroupIds gs st = Return (false, gs) st.
Proof.
  induction 1 as [|g gs Hg _ IH]; simpl; [reflexivity|].
  unfold mbind, M_bind. rewrite (repairGroup_stable _ _ _ _ Hg), IH.
  reflexivity.
Qed.

Lemma repairGroups_spec (legacyRootIds : list jsval)
    (validGroupIds : gset jsval) (gs : list Group.t) :
  RootGroupId ≠ "" →
  (∀ k, generateGuid k ≠ "") →
  Some RootGroupId ∈ validGroupIds →
  Some RootGroupId ∉ legacyRootIds →
  ∀ st, ∃ changed gs' st',
    repairGroups legacyRootIds validGroupIds gs st = Return (changed, gs') st'
    ∧ st' = withRepairState (nextGuid st') (debugLog st') st
    ∧ Forall2 (groupRepair legacyRootIds validGroupIds) gs gs'
    ∧ (changed = false → gs' = gs ∧ st' = st).
Proof.
  intros Hroot Hguid Hvalid Hleg. induction gs as [|g gs IH]; intros st.
  - exists false, [], st. simpl. unfold_M. rewrite withRepairState_id.
    repeat split; constructor.
  - destruct (repairGroup_spec legacyRootIds validGroupIds g st
                Hroot Hguid Hvalid Hleg)
      as (c & g' & st1 & Hrun1 & Hst1 & Hg & Hsame1).
    destruct (IH st1) as (cs & gs' & st2 & Hrun2 & Hst2 & Hall & Hsame2).
    exists (c || cs), (g' :: gs'), st2.
    split.
    { simpl. unfold mbind, M_bind. rewrite Hrun1, Hrun2. reflexivity. }
    split. { rewrite Hst2, Hst1 at 1. reflexivity. }
    split. { by constructor. }
    intros Hc. apply orb_false_elim in Hc as [Hc Hcs].
    destruct (Hsame1 Hc) as [-> ->]. destruct (Hsame2 Hcs) as [-> ->]. auto.
Qed.

Lemma root_not_legacy (groups : list Group.t) :
  Some RootGroupId ∉ legacyRootIdsOf groups.
Proof.
  unfold legacyRootIdsOf. intros H.
  apply list_elem_of_fmap in H as (g & Hid & Hg).
  apply elem_of_List_filter in Hg as [_ Hg].
  unfold isLegacyRoot in Hg. apply andb_true_iff in Hg as [_ Hg].
  apply bool_decide_eq_true_1 in Hg. congruence.
Qed.

Lemma root_valid (groups : list Group.t) :
  Some RootGroupId ∈ validGroupIdsOf groups.
Proof. apply elem_of_union_l, elem_of_singleton. reflexivity. Qed.

Lemma elem_of_validGroupIdsOf (groups : list Group.t) (x : jsval) :
  x ∈ validGroupIdsOf groups ↔
  x = Some RootGroupId
  ∨ ∃ g, g ∈ groups ∧ Group.id g ≠ Some RootGroupId ∧ Group.id g = x.
Proof.
  unfold validGroupIdsOf.
  rewrite elem_of_union, elem_of_singleton, elem_of_list_to_set, list_elem_of_fmap.
  split; (intros [?|H]; [by left | right]).
  - destruct H as (g & -> & Hg). apply elem_of_List_filter in Hg as [Hg Hn].
    apply bool_decide_eq_true_1 in Hn. eauto.
  - destruct H as (g & Hg & Hn & <-). exists g. split; [done|].
    apply elem_of_List_filter. split; [done|]. by apply bool_decide_eq_true_2.
Qed.

Lemma elem_of_legacyRootIdsOf (groups : list Group.t) (x : jsval) :
  x ∈ legacyRootIdsOf groups ↔
  ∃ g, g ∈ groups ∧ Group.name g = Some RootGroupName
       ∧ Group.id g ≠ Some RootGroupId ∧ Group.id g = x.
Proof.
  unfold legacyRootIdsOf. rewrite list_elem_of_fmap. split.
  - intros (g & -> & Hg). apply elem_of_List_filter in Hg as [Hg Hl].
    unfold isLegacyRoot in Hl. apply andb_true_iff in Hl as [Hn Hi].
    apply bool_decide_eq_true_1 in Hn, Hi. eauto.
  - intros (g & Hg & Hn & Hi & <-). exists g. split; [done|].
    apply elem_of_List_filter. split; [done|]. unfold isLegacyRoot.
    by rewrite !bool_decide_eq_true_2.
Qed.

(** The group pass run on groups it has nothing to do on: no write, no
    GUID, no debug event. *)
Lemma assignConnectionGroupMissingIds_stable (st : Store) :
  groupsRepaired (globalGroups st) →
  assignConnectionGroupMissingIds st = Return tt st.
Proof.
  intros H. unfold assignConnectionGroupMissingIds.
  unfold mbind at 1 2 3, M_bind at 1 2 3, gets. simpl.
  unfold mbind, M_bind.
  fold (legacyRootIdsOf (globalGroups st)).
  fold (validGroupIdsOf (globalGroups st)).
  rewrite repairGroups_stable by exact H. reflexivity.
Qed.

Lemma Forall2_diag {A} (R : A → A → Prop) (l : list A) :
  Forall2 R l l → Forall (λ x, R x x) l.
Proof.
  induction l as [|x l IH]; intros H; [constructor|].
  inversion H; subst. constructor; auto.
Qed.

(** Whatever the stored groups, the group pass fulfils and leaves groups
    it has nothing more to do on, provided the GUIDs handed out are
    non-empty and not already the id of a stored group. *)
Lemma assignConnectionGroupMissingIds_spec (st : Store) :
  RootGroupId ≠ "" →
  (∀ k, generateGuid k ≠ "") →
  (∀ k g, g ∈ globalGroups st → Group.id g ≠ Some (generateGuid k)) →
  ∃ st', assignConnectionGroupMissingIds st = Return tt st'
         ∧ groupsRepaired (globalGroups st')
         ∧ globalConnections st' = globalConnections st.
Proof.
  intros Hroot Hguid Hfresh. unfold assignConnectionGroupMissingIds.
  unfold mbind at 1 2 3, M_bind at 1 2 3, gets. simpl.
  fold (legacyRootIdsOf (globalGroups st)).
  fold (validGroupIdsOf (globalGroups st)).
  set (legacy := legacyRootIdsOf (globalGroups st)).
  set (valid := validGroupIdsOf (globalGroups st)).
  set (gs := List.filter notRoot (globalGroups st)).
  destruct (repairGroups_spec legacy valid gs Hroot Hguid
              (root_valid _) (root_not_legacy _) st)
    as (c & gs' & st1 & Hrun & Hst1 & Hall & Hsame).
  unfold mbind, M_bind. rewrite Hrun. destruct c.
  - eexists. split; [reflexivity|]. simpl.
    split; [|by rewrite Hst1].
    unfold groupsRepaired. apply Forall_forall. intros g' Hg'.
    apply elem_of_List_filter in Hg' as [Hg' Hnot].
    destruct (Forall2_elem_of_r _ _ _ _ Hall Hg')
      as (g & Hg & Hname & Hid & Hpar & Hl & Hp & Hv & Hi).
    repeat split; [| exact Hp | | exact Hi].
    + intros Hin. apply elem_of_legacyRootIdsOf in Hin
        as (l' & Hl' & Hn' & Hnr' & Heq).
      destruct (Forall2_elem_of_r _ _ _ _ Hall Hl')
        as (l & Hlin & Hlname & Hlid & _).
      apply elem_of_List_filter in Hlin as [Hlin Hlnot].
      destruct (truthy (Group.id l)) eqn:Htl.
      * apply Hl. apply elem_of_legacyRootIdsOf. exists l.
        rewrite <- Hlid, <- Hlname. auto.
      * destruct Hlid as [k Hk].
        apply elem_of_validGroupIdsOf in Hv as [Hv | (h & Hh & _ & Hhid)].
        -- congruence.
        -- apply (Hfresh k h Hh). congruence.
    + apply elem_of_validGroupIdsOf.
      apply elem_of_validGroupIdsOf in Hv as [Hv | (h & Hh & Hhn & Hhid)];
        [by left | right].
      assert (Hhgs : h ∈ gs).
      { apply elem_of_List_filter. split; [done|]. by apply bool_decide_eq_true_2. }
      destruct (Forall2_elem_of_l _ _ _ _ Hall Hhgs) as (h' & Hh' & _ & Hhid' & _).
      rewrite Hhid, Hp in Hhid'. exists h'. rewrite Hhid'.
      repeat split; [done | congruence].
  - destruct (Hsame eq_refl) as [-> ->]. exists st. split; [reflexivity|].
    split; [|reflexivity].
    unfold groupsRepaired. fold gs legacy valid.
    eapply Forall_impl; [apply Forall2_diag, Hall|].
    by intros g (_ & _ & _ & ?).
Qed.

(** *** Idempotence of initialization *)

(** C1: the integrity pass (groups, then profiles) is idempotent.  On
    every store it fulfils, and run again on the store it left it
    fulfils with that very store: no record is modified and the count of
    settings writes stays where it was.  The GUIDs handed out are
    taken to be non-empty and not already the id of a stored group, and
    the ROOT id to be non-empty. *)
Theorem initialize_idempotent :
  RootGroupId ≠ "" →
  (∀ k, generateGuid k ≠ "") →
  ∀ st : Store,
    (∀ k g, g ∈ globalGroups st → Group.id g ≠ Some (generateGuid k)) →
    ∃ st1 : Store,
      initialize st = Return tt st1
      ∧ initialize st1 = Return tt st1.
Proof.
  intros Hroot Hguid st Hfresh.
  destruct (assignConnectionGroupMissingIds_spec st Hroot Hguid Hfresh)
    as (stg & Hrung & Hrep & _).
  destruct (assignConnectionMissingIds_spec stg)
    as (st1 & evs & Hrunp & _ & _ & Hall & Hgroups).
  exists st1. unfold initialize, mbind, M_bind.
  rewrite Hrung, Hrunp. split; [reflexivity|].
  rewrite assignConnectionGroupMissingIds_stable by (by rewrite Hgroups).
  apply assignConnectionMissingIds_stable.
  rewrite Hgroups. apply Forall_forall. intros p' Hp'.
  destruct (Forall2_elem_of_r _ _ _ _ Hall Hp') as (p & _ & Hg & Hi).
  unfold profileRepaired. rewrite Hg. unfold repairedGroupId.
  pose proof (root_not_legacy (globalGroups stg)) as Hnl.
  repeat case_bool_decide; repeat split; try done.
Qed.

(** *** Removing a group *)

Lemma inSubtree_trans (groups : list Group.t) (a b c : jsval) :
  inSubtree groups a b → inSubtree groups b c → inSubtree groups a c.
Proof.
  intros Hab Hbc. induction Hbc as [|g Hg _ IH]; [exact Hab|].
  by apply inSubtree_child.
Qed.

Lemma collectSubgroups_spec (rec : jsval → option (gset jsval)) (groupId : jsval)
    (gs : list Group.t) :
  ∀ (acc S : gset jsval),
    collectSubgroups rec groupId gs acc = Some S →
    ∀ x, x ∈ S ↔
         x ∈ acc
         ∨ ∃ g c, g ∈ gs ∧ Group.parentId g = groupId
                  ∧ rec (Group.id g) = Some c ∧ x ∈ c.
Proof.
  induction gs as [|g gs IH]; intros acc S H x; simpl in H.
  - inversion H; subst. split; [by left|].
    intros [?|(g & c & Hg & _)]; [done | by apply elem_of_nil in Hg].
  - case_bool_decide as Hpar.
    + destruct (rec (Group.id g)) as [c|] eqn:Hrec; [|discriminate].
      rewrite (IH _ _ H x), elem_of_union. split.
      * intros [[?|?]|(g' & c' & Hg' & ?)]; [by left | right | right].
        -- exists g, c. split; [constructor | done].
        -- exists g', c'. split; [by constructor | done].
      * intros [?|(g' & c' & Hg' & Hp' & Hr' & Hx)]; [by left; left|].
        apply elem_of_cons in Hg' as [->|Hg'].
        -- left; right. congruence.
        -- right. eauto 6.
    + rewrite (IH _ _ H x). split.
      * intros [?|(g' & c' & Hg' & ?)]; [by left | right].
        exists g', c'. split; [by constructor | done].
      * intros [?|(g' & c' & Hg' & Hp' & Hr' & Hx)]; [by left|].
        apply elem_of_cons in Hg' as [->|Hg']; [done|]. right. eauto 6.
Qed.

Lemma collectSubgroups_Some (rec : jsval → option (gset jsval)) (groupId : jsval)
    (gs : list Group.t) :
  (∀ g, g ∈ gs → Group.parentId g = groupId → is_Some (rec (Group.id g))) →
  ∀ acc, is_Some (collectSubgroups rec groupId gs acc).
Proof.
  induction gs as [|g gs IH]; intros Hrec acc; simpl; [by eexists|].
  assert (Hrest : ∀ g', g' ∈ gs → Group.parentId g' = groupId
                        → is_Some (rec (Group.id g')))
    by (intros g' Hg'; apply Hrec; by constructor).
  case_bool_decide as Hpar; [|by apply IH].
  destruct (Hrec g (list_elem_of_here _ _) Hpar) as [c ->]. by apply IH.
Qed.

Lemma getAllSubgroupIds_unfold (depth : nat) (groups : list Group.t)
    (groupId : jsval) (S : gset jsval) :
  getAllSubgroupIds depth groups groupId = Some S →
  ∃ depth', depth = Datatypes.S depth'
    ∧ ∀ x, x ∈ S ↔
           x = groupId
           ∨ ∃ g c, g ∈ groups ∧ Group.parentId g = groupId
                    ∧ getAllSubgroupIds depth' groups (Group.id g) = Some c
                    ∧ x ∈ c.
Proof.
  destruct depth as [|depth']; simpl; [discriminate|].
  intros H. exists depth'. split; [reflexivity|]. intros x.
  rewrite (collectSubgroups_spec _ _ _ _ _ H x), elem_of_singleton.
  reflexivity.
Qed.

(** Every id collected lies in the subtree of the group asked for. *)
Lemma getAllSubgroupIds_sound (groups : list Group.t) (depth : nat) :
  ∀ (groupId : jsval) (S : gset jsval),
    getAllSubgroupIds depth groups groupId = Some S →
    ∀ x, x ∈ S → inSubtree groups groupId x.
Proof.
  induction depth as [|depth IH]; intros groupId S H x Hx; [discriminate|].
  apply getAllSubgroupIds_unfold in H as (d & Hd & Hspec).
  injection Hd as <-.
  apply Hspec in Hx as [->|(g & c & Hg & Hpar & Hrec & Hx)]; [constructor|].
  apply inSubtree_trans with (Group.id g); [|by eapply IH].
  apply inSubtree_child; [done|]. rewrite Hpar. constructor.
Qed.

Lemma collectSubgroups_children (rec : jsval → option (gset jsval))
    (groupId : jsval) (gs : list Group.t) :
  ∀ (acc S : gset jsval),
    collectSubgroups rec groupId gs acc = Some S →
    ∀ g, g ∈ gs → Group.parentId g = groupId → is_Some (rec (Group.id g)).
Proof.
  induction gs as [|a gs IH]; intros acc S H g Hg Hpar; simpl in H.
  - by apply elem_of_nil in Hg.
  - apply elem_of_cons in Hg as [->|Hg].
    + rewrite bool_decide_eq_true_2 in H by done.
      destruct (rec (Group.id a)); [by eexists | discriminate].
    + case_bool_decide; [|by eapply IH].
      destruct (rec (Group.id a)); [by eapply IH | discriminate].
Qed.

Lemma getAllSubgroupIds_root (groups : list Group.t) (depth : nat)
    (groupId : jsval) (S : gset jsval) :
  getAllSubgroupIds depth groups groupId = Some S → groupId ∈ S.
Proof.
  intros H. apply getAllSubgroupIds_unfold in H as (d & _ & Hspec).
  apply Hspec. by left.
Qed.

Lemma getAllSubgroupIds_closed (groups : list Group.t) (depth : nat) :
  ∀ (groupId : jsval) (S : gset jsval),
    getAllSubgroupIds depth groups groupId = Some S →
    ∀ g, g ∈ groups → Group.parentId g ∈ S → Group.id g ∈ S.
Proof.
  induction depth as [|depth IH]; intros groupId S H g Hg Hpar; [discriminate|].
  pose proof (collectSubgroups_children _ _ _ _ _ H) as Hchildren.
  apply getAllSubgroupIds_unfold in H as (d & Hd & Hspec).
  injection Hd as <-.
  apply Hspec. right.
  apply Hspec in Hpar as [Hpar|(g' & c & Hg' & Hp' & Hrec & Hx)].
  - destruct (Hchildren g Hg Hpar) as [c Hc].
    exists g, c. repeat split; try done. by eapply getAllSubgroupIds_root.
  - exists g', c. repeat split; try done. by eapply IH.
Qed.

(** Every id of the subtree is collected. *)
Lemma getAllSubgroupIds_complete (groups : list Group.t) (depth : nat)
    (groupId : jsval) (S : gset jsval) :
  getAllSubgroupIds depth groups groupId = Some S →
  ∀ x, inSubtree groups groupId x → x ∈ S.
Proof.
  intros H x Hx. induction Hx as [|g Hg _ IH].
  - by eapply getAllSubgroupIds_root.
  - by eapply getAllSubgroupIds_closed.
Qed.

(** On groups whose parent links climb strictly along some height, the
    walk returns as soon as the stack admits that height. *)
Lemma getAllSubgroupIds_terminates (groups : list Group.t) (height : jsval → nat) :
  (∀ g, g ∈ groups → height (Group.id g) < height (Group.parentId g)) →
  ∀ depth groupId,
    height groupId < depth → is_Some (getAllSubgroupIds depth groups groupId).
Proof.
  intros Hh. induction depth as [|depth IH]; intros groupId Hlt; [lia|].
  simpl. apply collectSubgroups_Some. intros g Hg Hpar.
  apply IH. specialize (Hh g Hg). rewrite Hpar in Hh. lia.
Qed.

Lemma filter_length_lt {A} (f : A → bool) (l : list A) (x : A) :
  x ∈ l → f x = false → List.length (List.filter f l) < List.length l.
Proof.
  induction l as [|y l IH]; intros Hx Hf; [by apply elem_of_nil in Hx|].
  pose proof (List.filter_length_le f l) as Hle. simpl.
  apply elem_of_cons in Hx as [<-|Hx].
  - rewrite Hf. lia.
  - specialize (IH Hx Hf). destruct (f y); simpl; lia.
Qed.

Lemma filter_none_removed {A} (f : A → bool) (l : list A) :
  existsb (λ x, negb (f x)) l = false → List.filter f l = l.
Proof.
  induction l as [|x l IH]; simpl; [done|]. intros H.
  apply orb_false_elim in H as [Hx Hl]. apply negb_false_iff in Hx.
  rewrite Hx, IH; done.
Qed.

Lemma fmap_none_changed {A} (c : A → bool) (f : A → A) (l : list A) :
  existsb c l = false → (λ x, if c x then f x else x) <$> l = l.
Proof.
  induction l as [|x l IH]; intros H; [done|]. simpl in H.
  apply orb_false_elim in H as [Hx Hl]. rewrite fmap_cons, Hx.
  f_equal. by apply IH.
Qed.

(** C2: [removeGroup id "delete"] on a stored group other than ROOT.
    [S] is the set of ids of the target and of its transitive descendant
    groups.  The call fulfils with [true]; the groups of the global scope
    are afterwards those of before whose id is not in [S], unchanged and
    in their order; the connections of the global scope are those of
    before whose groupId is not in [S], unchanged and in their order; the
    workspace layers are not touched.  The groups of the global scope are
    those [getGroups] returns; the stored array is the former one without
    the records whose id is in [S] and without any record carrying the
    ROOT id.  The parent links are taken to climb strictly along a height
    that the call stack admits (a tree). *)
Theorem removeGroup_delete_removes_subtree :
  ∀ (st : Store) (id : string) (height : jsval → nat),
    id ≠ RootGroupId →
    (∃ g, g ∈ globalGroups st ∧ Group.id g = Some id) →
    (∀ g, g ∈ globalGroups st →
          height (Group.id g) < height (Group.parentId g)) →
    height (Some id) < stackLimit →
    ∃ (S : gset jsval) (st' : Store) (groups : list Group.t),
      (∀ x, x ∈ S ↔ inSubtree (globalGroups st) (Some id) x)
      ∧ removeGroup id delete st = Return true st'
      ∧ getGroups Global st = Return (getRootGroup :: groups) st
      ∧ getGroups Global st'
        = Return (getRootGroup
                  :: List.filter (λ g, bool_decide (Group.id g ∉ S)) groups) st'
      ∧ globalGroups st'
        = List.filter (λ g, bool_decide (Group.id g ∉ S) && notRoot g)
            (globalGroups st)
      ∧ globalConnections st'
        = List.filter (λ c, bool_decide (Profile.groupId c ∉ S))
            (globalConnections st)
      ∧ workspaceConnections st' = workspaceConnections st
      ∧ workspaceFolderConnections st' = workspaceFolderConnections st
      ∧ workspaceGroups st' = workspaceGroups st
      ∧ workspaceFolderGroups st' = workspaceFolderGroups st.
Proof.
  intros st id height Hid (g0 & Hg0 & Hg0id) Hheight Hstack.
  destruct (getAllSubgroupIds_terminates _ height Hheight stackLimit (Some id) Hstack)
    as [S HS].
  assert (Hlen : List.length
                   (List.filter (λ g, bool_decide (Group.id g ∉ S) && notRoot g)
                      (globalGroups st))
                 ≠ List.length (globalGroups st)).
  { apply Nat.lt_neq, (filter_length_lt _ _ g0 Hg0).
    rewrite bool_decide_eq_false_2; [done|].
    intros Hn. apply Hn. rewrite Hg0id. by eapply getAllSubgroupIds_root. }
  assert (Hview : ∀ gs : list Group.t,
             List.filter notRoot
               (List.filter (λ g, bool_decide (Group.id g ∉ S) && notRoot g) gs)
             = List.filter (λ g, bool_decide (Group.id g ∉ S))
                 (List.filter notRoot gs)).
  { intros gs. rewrite !filter_filter_andb. apply List.filter_ext.
    intros g. destruct (bool_decide (Group.id g ∉ S)), (notRoot g); done. }
  exists S.
  unfold removeGroup, getGroups. unfold_M. simpl.
  rewrite (bool_decide_eq_false_2 _ Hid), HS. simpl.
  rewrite (bool_decide_eq_false_2 _ Hlen).
  destruct (existsb _ (globalConnections st)) eqn:Hmod; simpl.
  - eexists _, _. split.
    { intros x. split; [by eapply getAllSubgroupIds_sound
                       | by eapply getAllSubgroupIds_complete]. }
    split; [reflexivity|]. split; [reflexivity|]. simpl.
    rewrite Hview. repeat split; reflexivity.
  - eexists _, _. split.
    { intros x. split; [by eapply getAllSubgroupIds_sound
                       | by eapply getAllSubgroupIds_complete]. }
    split; [reflexivity|]. split; [reflexivity|]. simpl.
    rewrite Hview. repeat split; try reflexivity.
    symmetry. apply filter_none_removed.
    rewrite <- Hmod. clear.
    induction (globalConnections st) as [|c l IH]; simpl; [done|].
    by rewrite IH, bool_decide_not, negb_involutive.
Qed.

Lemma filter_fmap_preserved {A} (p : A → bool) (f : A → A) (l : list A) :
  (∀ x, p (f x) = p x) →
  List.filter p (f <$> l) = f <$> List.filter p l.
Proof.
  intros Hp. induction l as [|x l IH]; [done|].
  rewrite fmap_cons. simpl. rewrite Hp.
  destruct (p x); [rewrite fmap_cons|]; by rewrite IH.
Qed.

(** C3: [removeGroup id "move"] on a stored group other than ROOT.  The
    call fulfils with [true]; of the groups of the global scope only those
    carrying the id [id] are removed; a remaining group whose parentId is
    [id] gets the ROOT id as parentId, every other remaining group is
    unchanged (a grandchild keeps its parent); a connection of the global
    scope whose groupId is [id] gets the ROOT id as groupId, every other
    connection is unchanged; order is kept and the workspace layers are
    not touched.  The groups of the global scope are those [getGroups]
    returns; the stored array also loses any record carrying the ROOT
    id. *)
Theorem removeGroup_move_reparents_children :
  ∀ (st : Store) (id : string),
    id ≠ RootGroupId →
    (∃ g, g ∈ globalGroups st ∧ Group.id g = Some id) →
    ∃ (st' : Store) (groups : list Group.t),
      removeGroup id move st = Return true st'
      ∧ getGroups Global st = Return (getRootGroup :: groups) st
      ∧ getGroups Global st'
        = Return
            (getRootGroup
             :: ((λ g, if bool_decide (Group.parentId g = Some id)
                       then Group.mk (Group.id g) (Group.name g) (Some RootGroupId)
                       else g)
                 <$> List.filter (λ g, bool_decide (Group.id g ≠ Some id)) groups))
            st'
      ∧ globalGroups st'
        = (λ g, if bool_decide (Group.parentId g = Some id)
                then Group.mk (Group.id g) (Group.name g) (Some RootGroupId)
                else g)
          <$> List.filter
                (λ g, bool_decide (Group.id g ≠ Some id) && notRoot g)
                (globalGroups st)
      ∧ globalConnections st'
        = (λ c, if bool_decide (Profile.groupId c = Some id)
                then Profile.mk (Profile.id c) (Some RootGroupId)
                       (Profile.profileName c) (Profile.server c)
                       (Profile.connectionString c) (Profile.extra c)
                else c)
          <$> globalConnections st
      ∧ workspaceConnections st' = workspaceConnections st
      ∧ workspaceFolderConnections st' = workspaceFolderConnections st
      ∧ workspaceGroups st' = workspaceGroups st
      ∧ workspaceFolderGroups st' = workspaceFolderGroups st.
Proof.
  intros st id Hid (g0 & Hg0 & Hg0id).
  assert (Hlen : List.length
                   (reparentGroup id <$>
                      List.filter (λ g, bool_decide (Group.id g ≠ Some id) && notRoot g)
                        (globalGroups st))
                 ≠ List.length (globalGroups st)).
  { rewrite length_fmap. apply Nat.lt_neq, (filter_length_lt _ _ g0 Hg0).
    rewrite bool_decide_eq_false_2; [done|]. by intros Hn. }
  assert (Hview : ∀ gs : list Group.t,
             List.filter notRoot
               (reparentGroup id <$>
                  List.filter (λ g, bool_decide (Group.id g ≠ Some id) && notRoot g) gs)
             = reparentGroup id <$>
                 List.filter (λ g, bool_decide (Group.id g ≠ Some id))
                   (List.filter notRoot gs)).
  { intros gs. rewrite filter_fmap_preserved.
    - f_equal. rewrite !filter_filter_andb. apply List.filter_ext.
      intros g. destruct (bool_decide (Group.id g ≠ Some id)), (notRoot g); done.
    - intros g. unfold reparentGroup, notRoot.
      by destruct (bool_decide (Group.parentId g = Some id)). }
  unfold removeGroup, getGroups. unfold_M. simpl.
  rewrite (bool_decide_eq_false_2 _ Hid). simpl.
  rewrite (bool_decide_eq_false_2 _ Hlen).
  destruct (existsb _ (globalConnections st)) eqn:Hmod; simpl.
  - eexists _, _. split; [reflexivity|]. split; [reflexivity|]. simpl.
    rewrite Hview. repeat split; reflexivity.
  - eexists _, _. split; [reflexivity|]. split; [reflexivity|]. simpl.
    rewrite Hview. repeat split; try reflexivity.
    symmetry. by apply (fmap_none_changed _ (Profile.with_groupId (Some RootGroupId))).
Qed.

(** *** The order of [getConnections] *)

Lemma getConnections_all (st : Store) :
  getConnections true st =
  match sortProfiles (globalConnections st) with
  | None => Throw TypeError st
  | Some G =>
      match sortProfiles
              (List.filter (λ p, truthy (Profile.id p))
                 (getConnectionsFromSettings Workspace st)) with
      | None => Throw TypeError (warnMissingIds st)
      | Some W => Return (List.filter (visible st) (G ++ W)) (warnMissingIds st)
      end
  end.
Proof.
  unfold getConnections, getGroups, warnMissingIds. unfold_M. simpl.
  unfold sortM. destruct (sortProfiles (globalConnections st)) as [G|];
    unfold_M; [|reflexivity].
  unfold setDisplayedMissingIdError.
  set (ws := workspaceConnections st ++ workspaceFolderConnections st).
  set (missing := if hasDisplayedMissingIdError st then [] else _).
  destruct (bool_decide (0 < List.length missing)); simpl;
    (destruct (sortProfiles _) as [W|]; [|reflexivity]);
    f_equal; (case_bool_decide as Hlen;
      [by rewrite filter_filter_andb
      | destruct (G ++ W); [reflexivity | simpl in Hlen; lia]]).
Qed.

Section Sorting.
Hypothesis localeCompare_total :
  ∀ a b, (0 ≤ localeCompare a b)%Z → (localeCompare b a ≤ 0)%Z.
Hypothesis localeCompare_trans :
  ∀ a b c, (localeCompare a b ≤ 0)%Z → (localeCompare b c ≤ 0)%Z →
           (localeCompare a c ≤ 0)%Z.

Lemma insertSorted_spec (x : Profile.t) (l : list Profile.t) :
  ∀ l', insertSorted x l = Some l' →
        StronglySorted keyLe l →
        StronglySorted keyLe l' ∧ l' ≡ₚ x :: l.
Proof using Type*.
  induction l as [|y l IH]; intros l' H Hs; simpl in H.
  - inversion H; subst. split; [repeat constructor | done].
  - unfold compareConnectionProfile in H.
    destruct (displayKey x) as [kx|] eqn:Hkx; [|discriminate].
    apply StronglySorted_inv in Hs as [Hs Hy].
    destruct (Z.ltb_spec (localeCompare kx (toString (displayKey y))) 0) as [Hle|Hgt].
    + inversion H; subst. split; [|done].
      assert (Hxy : keyLe x y) by (unfold keyLe; rewrite Hkx; simpl; lia).
      constructor; [by constructor|]. constructor; [done|].
      eapply Forall_impl; [exact Hy|].
      intros z Hz. unfold keyLe in *. eauto.
    + destruct (insertSorted x l) as [r|] eqn:Hr; [|discriminate].
      inversion H; subst. destruct (IH r eq_refl Hs) as [Hsr Hperm].
      split; [|by rewrite Hperm; apply Permutation_swap].
      constructor; [done|]. rewrite Hperm. constructor; [|done].
      unfold keyLe. rewrite Hkx. simpl. by apply localeCompare_total.
Qed.

Lemma sortInto_spec (l : list Profile.t) :
  ∀ sorted l', sortInto sorted l = Some l' →
               StronglySorted keyLe sorted →
               StronglySorted keyLe l' ∧ l' ≡ₚ sorted ++ l.
Proof using Type*.
  induction l as [|x l IH]; intros sorted l' H Hs; simpl in H.
  - inversion H; subst. split; [done | by rewrite app_nil_r].
  - destruct (insertSorted x sorted) as [r|] eqn:Hr; [|discriminate]. simpl in H.
    destruct (insertSorted_spec x sorted r Hr Hs) as [Hsr Hperm].
    destruct (IH r l' H Hsr) as [Hs' Hperm'].
    split; [done|]. rewrite Hperm', Hperm. simpl.
    by rewrite Permutation_middle.
Qed.

Lemma sortProfiles_spec (l : list Profile.t) :
  ∀ l', sortProfiles l = Some l' → StronglySorted keyLe l' ∧ l' ≡ₚ l.
Proof using Type*.
  intros l' H. apply (sortInto_spec l [] l' H). constructor.
Qed.

Lemma StronglySorted_filter (f : Profile.t → bool) (l : list Profile.t) :
  StronglySorted keyLe l → StronglySorted keyLe (List.filter f l).
Proof.
  induction 1 as [|x l _ IH Hx]; simpl; [constructor|].
  destruct (f x); [|done]. constructor; [done|].
  apply Forall_forall. intros y Hy. apply elem_of_List_filter in Hy as [Hy _].
  by eapply Forall_forall in Hx.
Qed.
End Sorting.

Lemma insertSorted_total (x : Profile.t) (l : list Profile.t) :
  displayKey x ≠ None → is_Some (insertSorted x l).
Proof.
  intros Hx. induction l as [|y l IH]; simpl; [by eexists|].
  unfold compareConnectionProfile.
  destruct (displayKey x) as [kx|]; [|done].
  destruct (_ <? 0)%Z; [by eexists|].
  destruct IH as [r ->]. by eexists.
Qed.

Lemma sortInto_total (l : list Profile.t) :
  ∀ sorted, (∀ p, p ∈ l → displayKey p ≠ None) → is_Some (sortInto sorted l).
Proof.
  induction l as [|x l IH]; intros sorted H; simpl; [by eexists|].
  destruct (insertSorted_total x sorted) as [r ->]; [apply H; constructor|].
  simpl. apply IH. intros p Hp. apply H. by constructor.
Qed.

Lemma sortProfiles_total (l : list Profile.t) :
  (∀ p, p ∈ l → displayKey p ≠ None) → is_Some (sortProfiles l).
Proof. apply sortInto_total. Qed.

Lemma List_filter_Permutation {A} (f : A → bool) (l l' : list A) :
  l ≡ₚ l' → List.filter f l ≡ₚ List.filter f l'.
Proof.
  induction 1 as [|x l l' _ IH|x y l|l1 l2 l3 _ IH1 _ IH2]; simpl.
  - done.
  - destruct (f x); by rewrite IH.
  - destruct (f x), (f y); try done. apply Permutation_swap.
  - by rewrite IH1.
Qed.

Lemma hasConnectionInfo_displayKey (p : Profile.t) :
  hasConnectionInfo p = true → displayKey p ≠ None.
Proof.
  unfold hasConnectionInfo, displayKey, truthy.
  destruct (Profile.profileName p), (Profile.server p),
    (Profile.connectionString p); simpl;
    repeat (case_bool_decide; simpl); done.
Qed.

Lemma isSet_truthy (v : jsval) : isSet v = truthy v.
Proof.
  unfold isSet, truthy. destruct v as [s|].
  - apply bool_decide_ext. split.
    + intros [_ H] ->. by apply H.
    + intros H. split; [done|]. intros [= ->]. by apply H.
  - apply bool_decide_eq_false_2. by intros [H _].
Qed.

Lemma displayKey_specDisplayKey (p : Profile.t) :
  displayKey p = specDisplayKey p.
Proof.
  unfold displayKey, specDisplayKey. rewrite !isSet_truthy.
  destruct (truthy (Profile.profileName p)), (truthy (Profile.server p)); done.
Qed.

Lemma StronglySorted_bySpecDisplayKey (l : list Profile.t) :
  StronglySorted keyLe l →
  (∀ p, p ∈ l → displayKey p ≠ None) →
  StronglySorted bySpecDisplayKey l.
Proof.
  induction 1 as [|x l _ IH Hx]; intros Hkeys; [constructor|].
  constructor; [apply IH; intros p Hp; apply Hkeys; by constructor|].
  apply Forall_forall. intros y Hy.
  pose proof (proj1 (Forall_forall _ _) Hx y Hy) as Hxy.
  assert (Hkx : displayKey x ≠ None) by (apply Hkeys; constructor).
  assert (Hky : displayKey y ≠ None) by (apply Hkeys; by constructor).
  unfold keyLe in Hxy. unfold bySpecDisplayKey.
  rewrite <- !displayKey_specDisplayKey.
  destruct (displayKey x) as [kx|]; [|done].
  destruct (displayKey y) as [ky|]; [|done].
  by exists kx, ky.
Qed.

(** C5: the order of [getConnections(true)].  Whenever the call returns
    a list, the list is a block [G] followed by a block [W]: [G] holds
    the profiles of the global scope that pass the filters, [W] those of
    the workspace scope that carry an id and pass the filters, and each
    block is sorted by the derived display key (profileName if set, else
    server if set, else connectionString) under [localeCompare]: every
    profile of a block has such a key, and the key of a profile does not
    compare above the key of any profile after it in the block.  The call
    does return a list when every stored profile has a display key.
    [localeCompare] is taken to be a consistent comparator. *)
Theorem getConnections_global_then_workspace_sorted :
  (∀ a b, (0 ≤ localeCompare a b)%Z → (localeCompare b a ≤ 0)%Z) →
  (∀ a b c, (localeCompare a b ≤ 0)%Z → (localeCompare b c ≤ 0)%Z →
            (localeCompare a c ≤ 0)%Z) →
  ∀ st : Store,
    ((∀ p, p ∈ getConnectionsFromSettings Global st
                 ++ getConnectionsFromSettings Workspace st →
           specDisplayKey p ≠ None) →
     ∃ l st', getConnections true st = Return l st')
    ∧ ∀ l st',
        getConnections true st = Return l st' →
        ∃ G W : list Profile.t,
          l = G ++ W
          ∧ G ≡ₚ List.filter (visible st) (getConnectionsFromSettings Global st)
          ∧ W ≡ₚ List.filter (λ p, truthy (Profile.id p) && visible st p)
                   (getConnectionsFromSettings Workspace st)
          ∧ StronglySorted bySpecDisplayKey G
          ∧ StronglySorted bySpecDisplayKey W.
Proof.
  intros Htotal Htrans st. rewrite getConnections_all. split.
  - intros Hkeys.
    destruct (sortProfiles_total (globalConnections st)) as [G ->].
    { intros p Hp. rewrite displayKey_specDisplayKey.
      apply Hkeys, elem_of_app. by left. }
    destruct (sortProfiles_total
                (List.filter (λ p, truthy (Profile.id p))
                   (getConnectionsFromSettings Workspace st))) as [W ->].
    { intros p Hp. apply elem_of_List_filter in Hp as [Hp _].
      rewrite displayKey_specDisplayKey. apply Hkeys, elem_of_app. by right. }
    by eexists _, _.
  - intros l st' H.
    destruct (sortProfiles (globalConnections st)) as [G|] eqn:HG; [|discriminate].
    destruct (sortProfiles (List.filter _ _)) as [W|] eqn:HW; [|discriminate].
    inversion H; subst.
    destruct (sortProfiles_spec Htotal Htrans _ _ HG) as [HsG HpG].
    destruct (sortProfiles_spec Htotal Htrans _ _ HW) as [HsW HpW].
    assert (Hvisible : ∀ (l0 : list Profile.t) p,
               p ∈ List.filter (visible st) l0 → displayKey p ≠ None).
    { intros l0 p Hp. apply elem_of_List_filter in Hp as [_ Hp].
      apply hasConnectionInfo_displayKey.
      unfold visible in Hp. by apply andb_true_iff in Hp as [Hp _]. }
    exists (List.filter (visible st) G), (List.filter (visible st) W).
    split; [apply List.filter_app|].
    split; [by apply List_filter_Permutation|].
    split.
    { rewrite <- filter_filter_andb. by apply List_filter_Permutation. }
    split; (apply StronglySorted_bySpecDisplayKey;
            [by apply StronglySorted_filter | apply Hvisible]).
Qed.

(** *** Adding a connection and reading it back *)

Lemma addConnection_user_inv (st st' : Store) (p p' : Profile.t) :
  addConnection p user st = Return p' st' →
  globalConnections st'
  = List.filter (λ value, negb (isSameProfile value p')) (globalConnections st)
    ++ [p']
  ∧ globalGroups st' = globalGroups st
  ∧ getConnectionsFromSettings Workspace st'
    = getConnectionsFromSettings Workspace st
  ∧ Profile.id p' ≠ None
  ∧ Profile.groupId p' ≠ None
  ∧ hasConnectionInfo p' = hasConnectionInfo p
  ∧ displayKey p' = displayKey p.
Proof.
  unfold addConnection, populateMissingConnectionIds, addIdIfMissing,
    generateGuidM, writeConnectionsToSettings.
  unfold_M.
  destruct p as [[i|] [g|] pn sv cs ex]; simpl;
    intros H; inversion H; subst; simpl; repeat split; done.
Qed.

Lemma insertSorted_perm (x : Profile.t) (l : list Profile.t) :
  ∀ l', insertSorted x l = Some l' → l' ≡ₚ x :: l.
Proof.
  induction l as [|y l IH]; intros l' H; simpl in H.
  - by inversion H.
  - destruct (compareConnectionProfile x y) as [c|]; [|discriminate].
    destruct (c <? 0)%Z; [by inversion H|].
    destruct (insertSorted x l) as [r|]; [|discriminate].
    inversion H; subst. rewrite (IH r eq_refl). apply Permutation_swap.
Qed.

Lemma sortInto_perm (l : list Profile.t) :
  ∀ sorted l', sortInto sorted l = Some l' → l' ≡ₚ sorted ++ l.
Proof.
  induction l as [|x l IH]; intros sorted l' H; simpl in H.
  - inversion H; subst. by rewrite app_nil_r.
  - destruct (insertSorted x sorted) as [r|] eqn:Hr; [|discriminate]. simpl in H.
    rewrite (IH _ _ H), (insertSorted_perm _ _ _ Hr). simpl.
    by rewrite Permutation_middle.
Qed.

Lemma sortProfiles_perm (l : list Profile.t) :
  ∀ l', sortProfiles l = Some l' → l' ≡ₚ l.
Proof. intros l' H. apply (sortInto_perm l [] l' H). Qed.

Lemma find_app_l {A} (f : A → bool) (l1 l2 : list A) (x : A) :
  List.find f l1 = Some x → List.find f (l1 ++ l2) = Some x.
Proof.
  induction l1 as [|y l1 IH]; simpl; [discriminate|].
  destruct (f y); [done | exact IH].
Qed.

Lemma find_unique {A} (f : A → bool) (l : list A) (x : A) :
  x ∈ l → f x = true → (∀ y, y ∈ l → f y = true → y = x) →
  List.find f l = Some x.
Proof.
  intros Hx Hfx Huniq.
  destruct (List.find f l) as [y|] eqn:Hfind.
  - apply List.find_some in Hfind as [Hy Hfy].
    f_equal. apply Huniq; [by apply list_elem_of_In | done].
  - apply list_elem_of_In in Hx.
    pose proof (List.find_none _ _ Hfind x Hx). congruence.
Qed.

Lemma visible_spec (st : Store) (p : Profile.t) :
  visible st p = true ↔
  hasConnectionInfo p = true
  ∧ (Profile.groupId p = Some RootGroupId
     ∨ ∃ g, g ∈ globalGroups st ∧ Group.id g = Profile.groupId p).
Proof.
  unfold visible. rewrite andb_true_iff, bool_decide_eq_true.
  rewrite fmap_cons. simpl.
  rewrite elem_of_union, elem_of_singleton, elem_of_list_to_set, list_elem_of_fmap.
  split; intros [Hinfo Hgrp]; (split; [done|]).
  - destruct Hgrp as [?|(g & Hid & Hg)]; [by left | right].
    apply elem_of_List_filter in Hg as [Hg _]. eauto.
  - destruct Hgrp as [?|(g & Hg & Hid)]; [by left|].
    destruct (decide (Group.id g = Some RootGroupId)) as [Hr|Hr].
    + left. congruence.
    + right. exists g. split; [done|]. apply elem_of_List_filter.
      split; [done|]. by apply bool_decide_eq_true_2.
Qed.

(** C8, amended: the round trip through the user scope.  Let [p'] be the
    argument as [addConnection] leaves it (id and groupId back-filled)
    and [i] its id.  When [p] carries connection information, the group
    id of [p'] is the ROOT id or the id of a stored global group, no
    stored global profile that survives the addition carries the id [i],
    and every stored profile has a display key, then
    [getConnectionById i] returns [p'] itself. *)
Theorem addConnection_getConnectionById_roundtrip :
  ∀ (st st' : Store) (p p' : Profile.t) (i : string),
    addConnection p user st = Return p' st' →
    Profile.id p' = Some i →
    hasConnectionInfo p = true →
    (Profile.groupId p' = Some RootGroupId
     ∨ ∃ g, g ∈ globalGroups st ∧ Group.id g = Profile.groupId p') →
    (∀ q, q ∈ globalConnections st → isSameProfile q p' = false →
          Profile.id q ≠ Some i) →
    (∀ q, q ∈ getConnectionsFromSettings Global st
                ++ getConnectionsFromSettings Workspace st →
          displayKey q ≠ None) →
    ∃ st'', getConnectionById i st' = Return (Some p') st''.
Proof.
  intros st st' p p' i Hadd Hid Hinfo Hgroup Huniq Hkeys.
  apply addConnection_user_inv in Hadd
    as (Hconns & Hgroups & Hws & _ & _ & Hinfo' & Hkey').
  assert (Hvis : visible st' p' = true).
  { apply visible_spec. rewrite Hinfo', Hgroups. done. }
  unfold getConnectionById, mbind, M_bind. rewrite getConnections_all.
  destruct (sortProfiles_total (globalConnections st')) as [G HG].
  { intros q Hq. rewrite Hconns in Hq. apply elem_of_app in Hq as [Hq|Hq].
    - apply elem_of_List_filter in Hq as [Hq _]. apply Hkeys, elem_of_app. by left.
    - apply list_elem_of_singleton in Hq as ->. rewrite Hkey'.
      by apply hasConnectionInfo_displayKey. }
  destruct (sortProfiles_total
              (List.filter (λ q, truthy (Profile.id q))
                 (getConnectionsFromSettings Workspace st'))) as [W HW].
  { intros q Hq. apply elem_of_List_filter in Hq as [Hq _].
    rewrite Hws in Hq. apply Hkeys, elem_of_app. by right. }
  rewrite HG, HW. eexists. unfold_M. do 2 f_equal.
  rewrite List.filter_app. apply find_app_l.
  pose proof (sortProfiles_perm _ _ HG) as Hperm.
  apply find_unique.
  - apply elem_of_List_filter. split; [|done].
    rewrite Hperm, Hconns. apply elem_of_app. right. constructor.
  - by apply bool_decide_eq_true_2.
  - intros q Hq Hqid. apply bool_decide_eq_true_1 in Hqid.
    apply elem_of_List_filter in Hq as [Hq _].
    rewrite Hperm, Hconns in Hq. apply elem_of_app in Hq as [Hq|Hq].
    + apply elem_of_List_filter in Hq as [Hq Hsame].
      apply negb_true_iff in Hsame. by destruct (Huniq q Hq Hsame).
    + by apply list_elem_of_singleton in Hq.
Qed.

(** *** What [removeConnection] and [updateConnection] write back *)

Lemma removeConnectionHelper_spec (toRemove : Profile.t) (l : list Profile.t) :
  removeConnectionHelper toRemove l
  = (existsb (λ x, isSameProfile x toRemove) l,
     List.filter (λ x, negb (isSameProfile x toRemove)) l).
Proof.
  induction l as [|x l IH]; simpl; [done|]. rewrite IH.
  by destruct (isSameProfile x toRemove).
Qed.

Lemma findIndex_Some {A} (f : A → bool) (l : list A) (x : A) :
  x ∈ l → f x = true → ∃ i, findIndex f l = Some i.
Proof.
  induction l as [|y l IH]; intros Hx Hf; [by apply elem_of_nil in Hx|].
  simpl. destruct (f y) eqn:Hy; [by eexists|].
  apply elem_of_cons in Hx as [->|Hx]; [congruence|].
  destruct (IH Hx Hf) as [i ->]. by eexists.
Qed.

Lemma elem_of_list_insert_inv {A} (l : list A) (i : nat) (x y : A) :
  y ∈ <[i:=x]> l → y = x ∨ y ∈ l.
Proof.
  revert i. induction l as [|z l IH]; intros i Hy; [by right|].
  destruct i as [|i]; simpl in Hy.
  - apply elem_of_cons in Hy as [->|Hy]; [by left | right; by constructor].
  - apply elem_of_cons in Hy as [->|Hy]; [right; constructor|].
    destruct (IH i Hy) as [?|?]; [by left | right; by constructor].
Qed.


(** ** Further properties of the class *)

(** *** Back-filling ids *)

(** X1: [populateMissingConnectionIds] leaves a profile with both an id
    and a groupId: a missing groupId becomes the ROOT id, a missing id the
    next GUID, fields that are present and all other fields are kept.  It
    reports a modification exactly when one of the two was missing, touches
    nothing but the GUID supply, and run again on its result it reports no
    modification and changes nothing. *)
Theorem populateMissingConnectionIds_backfills :
  ∀ (p : Profile.t) (st : Store),
    ∃ (p' : Profile.t) (st' : Store),
      populateMissingConnectionIds p st
      = Return (bool_decide (Profile.id p = None ∨ Profile.groupId p = None), p') st'
      ∧ Profile.id p'
        = match Profile.id p with
          | None => Some (generateGuid (nextGuid st))
          | Some i => Some i
          end
      ∧ Profile.groupId p'
        = match Profile.groupId p with
          | None => Some RootGroupId
          | Some g => Some g
          end
      ∧ Profile.profileName p' = Profile.profileName p
      ∧ Profile.server p' = Profile.server p
      ∧ Profile.connectionString p' = Profile.connectionString p
      ∧ Profile.extra p' = Profile.extra p
      ∧ st' = withRepairState (nextGuid st') (debugLog st) st
      ∧ populateMissingConnectionIds p' st' = Return (false, p') st'.
Proof.
  intros [[i|] [g|] pn sv cs ex] st;
    unfold populateMissingConnectionIds, addIdIfMissing, generateGuidM;
    unfold_M; simpl; eexists _, _; (split; [reflexivity|]); simpl;
    repeat split; try reflexivity; by destruct st.
Qed.

(** *** Adding connections *)

Lemma filter_filter_same {A} (f : A → bool) (l : list A) :
  List.filter f (List.filter f l) = List.filter f l.
Proof.
  rewrite filter_filter_andb. apply List.filter_ext. intros x. by destruct (f x).
Qed.

(** X2: [addConnection] writes once, to the layer of the scope it is
    given: the array read from that scope without the profiles that are the
    same as the (back-filled) argument, followed by the argument.  No other
    array is touched.  For the workspace scope the array read is the
    workspace layer followed by the workspace-folder layer, so the profiles
    of the folder layer are copied into the workspace layer. *)
Theorem addConnection_writes_scope :
  ∀ (p : Profile.t) (scope : Scope) (st : Store),
    ∃ (p' : Profile.t) (st' : Store),
      addConnection p scope st = Return p' st'
      ∧ Profile.id p' ≠ None
      ∧ Profile.groupId p' ≠ None
      ∧ settingsWrites st' = S (settingsWrites st)
      ∧ globalGroups st' = globalGroups st
      ∧ workspaceGroups st' = workspaceGroups st
      ∧ workspaceFolderGroups st' = workspaceFolderGroups st
      ∧ workspaceFolderConnections st' = workspaceFolderConnections st
      ∧ match scope with
        | user =>
            globalConnections st'
            = List.filter (λ value, negb (isSameProfile value p'))
                (globalConnections st) ++ [p']
            ∧ workspaceConnections st' = workspaceConnections st
        | workspace =>
            workspaceConnections st'
            = List.filter (λ value, negb (isSameProfile value p'))
                (workspaceConnections st ++ workspaceFolderConnections st)
              ++ [p']
            ∧ globalConnections st' = globalConnections st
        end.
Proof.
  intros [[i|] [g|] pn sv cs ex] scope st;
    unfold addConnection, populateMissingConnectionIds, addIdIfMissing,
      generateGuidM, writeConnectionsToSettings;
    unfold_M; destruct scope; simpl; eexists _, _;
    (split; [reflexivity|]); simpl; repeat split; try done.
Qed.

Lemma addConnection_user_stored (st st' : Store) (p p' : Profile.t) :
  addConnection p user st = Return p' st' →
  globalConnections st'
  = List.filter (λ value, negb (isSameProfile value p')) (globalConnections st)
    ++ [p']
  ∧ Profile.id p' ≠ None
  ∧ Profile.groupId p' ≠ None.
Proof.
  unfold addConnection, populateMissingConnectionIds, addIdIfMissing,
    generateGuidM, writeConnectionsToSettings.
  unfold_M.
  destruct p as [[i|] [g|] pn sv cs ex]; simpl;
    intros H; inversion H; subst; simpl; repeat split; done.
Qed.

(** X3: adding to the user scope a profile that was just added changes no
    stored array, when the profile is the same as itself: the earlier copy
    is removed and the profile appended again. *)
Theorem addConnection_again :
  ∀ (p p' : Profile.t) (st st' : Store),
    addConnection p user st = Return p' st' →
    isSameProfile p' p' = true →
    ∃ st'' : Store,
      addConnection p' user st' = Return p' st''
      ∧ globalConnections st'' = globalConnections st'
      ∧ workspaceConnections st'' = workspaceConnections st'
      ∧ workspaceFolderConnections st'' = workspaceFolderConnections st'
      ∧ nextGuid st'' = nextGuid st'.
Proof.
  intros p p' st st' Hadd Hrefl.
  apply addConnection_user_stored in Hadd as (Hconns & Hid & Hgid).
  unfold addConnection, populateMissingConnectionIds, writeConnectionsToSettings.
  unfold_M.
  rewrite (bool_decide_eq_false_2 _ Hgid). simpl.
  rewrite (bool_decide_eq_false_2 _ Hid). simpl.
  eexists. split; [reflexivity|]. simpl. repeat split.
  rewrite Hconns, List.filter_app, filter_filter_same. simpl.
  rewrite Hrefl. simpl. by rewrite app_nil_r.
Qed.

(** *** Removing connections *)

Lemma existsb_false_Forall {A} (f : A → bool) (l : list A) :
  (∀ x, x ∈ l → f x = false) → existsb f l = false.
Proof.
  induction l as [|x l IH]; intros H; simpl; [done|].
  rewrite (H x) by constructor. apply IH. intros y Hy. apply H. by constructor.
Qed.

Lemma removeConnection_no_match (st : Store) (p : Profile.t)
    (view : list Profile.t) :
  getConnections false st = Return view st →
  (∀ q, q ∈ view → isSameProfile q p = false) →
  removeConnection p st = Return false st.
Proof.
  intros Hget Hnone.
  unfold removeConnection, mbind, M_bind. rewrite Hget.
  rewrite removeConnectionHelper_spec, existsb_false_Forall by done.
  reflexivity.
Qed.

(** X4: when no profile [getConnections(false)] returns is the same as
    the argument, [removeConnection] fulfils with [false] and leaves the
    store as it is: nothing is written. *)
Theorem removeConnection_not_found :
  ∀ (st : Store) (p : Profile.t) (view : list Profile.t),
    getConnections false st = Return view st →
    (∀ q, q ∈ view → isSameProfile q p = false) →
    removeConnection p st = Return false st.
Proof. intros st p view. apply removeConnection_no_match. Qed.

(** X5: after [removeConnection] fulfilled with [true], removing the same
    profile again fulfils with [false] and writes nothing: no profile the
    same as the argument is left among those [getConnections(false)]
    returns. *)
Theorem removeConnection_again :
  ∀ (st st' : Store) (p : Profile.t),
    removeConnection p st = Return true st' →
    removeConnection p st' = Return false st'.
Proof.
  intros st st' p Hrem.
  unfold removeConnection, mbind, M_bind in Hrem.
  rewrite getConnections_global in Hrem.
  destruct (sortProfiles (globalConnections st)) as [sorted|]; [|discriminate].
  rewrite removeConnectionHelper_spec in Hrem.
  destruct (existsb _ _); unfold_M; simpl in Hrem; [|discriminate].
  injection Hrem as <-.
  set (kept := List.filter (λ x, negb (isSameProfile x p))
                 (List.filter (visible st) sorted)).
  destruct (sortProfiles_total kept) as [sorted' Hsorted'].
  { intros q Hq. apply elem_of_List_filter in Hq as [Hq _].
    apply elem_of_List_filter in Hq as [_ Hq].
    apply andb_true_iff in Hq as [Hq _]. by apply hasConnectionInfo_displayKey. }
  apply removeConnection_no_match with (view := List.filter (visible st) sorted').
  - rewrite getConnections_global. simpl. fold kept. rewrite Hsorted'. reflexivity.
  - intros q Hq. apply elem_of_List_filter in Hq as [Hq _].
    rewrite (sortProfiles_perm _ _ Hsorted') in Hq.
    apply elem_of_List_filter in Hq as [_ Hq]. by apply negb_true_iff in Hq.
Qed.

(** *** Looking connections up *)

Lemma find_app {A} (f : A → bool) (l1 l2 : list A) :
  List.find f (l1 ++ l2)
  = match List.find f l1 with
    | Some x => Some x
    | None => List.find f l2
    end.
Proof.
  induction l1 as [|y l1 IH]; simpl; [done|]. by destruct (f y).
Qed.

(** X6: what [getConnectionById] returns.  A profile it returns carries
    the id asked for, has connection information and a group that exists,
    and is stored in the global scope or, when no visible profile of the
    global scope carries the id, in the workspace scope: the global scope
    shadows the workspace scope.  It returns [undefined] only when no
    visible global profile and no visible workspace profile with a
    non-empty id carries the id. *)
Theorem getConnectionById_result :
  ∀ (st st' : Store) (id : string) (r : option Profile.t),
    getConnectionById id st = Return r st' →
    match r with
    | Some q =>
        Profile.id q = Some id
        ∧ hasConnectionInfo q = true
        ∧ (Profile.groupId q = Some RootGroupId
           ∨ ∃ g, g ∈ globalGroups st ∧ Group.id g = Profile.groupId q)
        ∧ (q ∈ getConnectionsFromSettings Global st
           ∨ (q ∈ getConnectionsFromSettings Workspace st
              ∧ ∀ q', q' ∈ getConnectionsFromSettings Global st →
                      visible st q' = true → Profile.id q' ≠ Some id))
    | None =>
        (∀ q, q ∈ getConnectionsFromSettings Global st →
              visible st q = true → Profile.id q ≠ Some id)
        ∧ (∀ q, q ∈ getConnectionsFromSettings Workspace st →
                visible st q = true → truthy (Profile.id q) = true →
                Profile.id q ≠ Some id)
    end.
Proof.
  intros st st' id r Hget.
  unfold getConnectionById, mbind, M_bind in Hget.
  rewrite getConnections_all in Hget.
  destruct (sortProfiles (globalConnections st)) as [G|] eqn:HG; [|discriminate].
  destruct (sortProfiles (List.filter _ _)) as [W|] eqn:HW; [|discriminate].
  unfold_M. injection Hget as <- _.
  pose proof (sortProfiles_perm _ _ HG) as HpG.
  pose proof (sortProfiles_perm _ _ HW) as HpW.
  rewrite List.filter_app, find_app.
  set (f := λ profile : Profile.t, bool_decide (Profile.id profile = Some id)).
  assert (HnoneG : List.find f (List.filter (visible st) G) = None →
                   ∀ q, q ∈ globalConnections st → visible st q = true →
                        Profile.id q ≠ Some id).
  { intros Hnone q Hq Hvis Hid.
    assert (Hin : In q (List.filter (visible st) G)).
    { apply list_elem_of_In, elem_of_List_filter. by rewrite HpG. }
    pose proof (List.find_none _ _ Hnone q Hin) as Hf.
    unfold f in Hf. by rewrite bool_decide_eq_true_2 in Hf. }
  destruct (List.find f (List.filter (visible st) G)) as [q|] eqn:HfG.
  - apply List.find_some in HfG as [Hin Hf].
    apply list_elem_of_In, elem_of_List_filter in Hin as [Hin Hvis].
    apply bool_decide_eq_true_1 in Hf.
    apply visible_spec in Hvis as [Hinfo Hgrp].
    repeat split; try done. left. simpl. by rewrite <- HpG.
  - specialize (HnoneG eq_refl).
    destruct (List.find f (List.filter (visible st) W)) as [q|] eqn:HfW.
    + apply List.find_some in HfW as [Hin Hf].
      apply list_elem_of_In, elem_of_List_filter in Hin as [Hin Hvis].
      apply bool_decide_eq_true_1 in Hf.
      apply visible_spec in Hvis as [Hinfo Hgrp].
      repeat split; try done. right. split; [|done].
      rewrite HpW in Hin. by apply elem_of_List_filter in Hin as [Hin _].
    + split; [done|]. intros q Hq Hvis Htruthy Hid.
      assert (Hin : In q (List.filter (visible st) W)).
      { apply list_elem_of_In, elem_of_List_filter. split; [|done].
        rewrite HpW. by apply elem_of_List_filter. }
      pose proof (List.find_none _ _ HfW q Hin) as Hf.
      unfold f in Hf. by rewrite bool_decide_eq_true_2 in Hf.
Qed.

(** X7: [getConnections] never writes.  [getConnections(false)] leaves
    the store as it is; [getConnections(true)] changes at most the
    "already warned" flag, and called again on the store it left it
    returns the same list and leaves that store as it is. *)
Theorem getConnections_reads_only :
  ∀ (st st' : Store) (all : bool) (l : list Profile.t),
    getConnections all st = Return l st' →
    st' = (if all then warnMissingIds st else st)
    ∧ settingsWrites st' = settingsWrites st
    ∧ getConnections all st' = Return l st'.
Proof.
  intros st st' [] l Hget.
  - rewrite getConnections_all in Hget.
    destruct (sortProfiles (globalConnections st)) as [G|] eqn:HG; [|discriminate].
    destruct (sortProfiles (List.filter _ _)) as [W|] eqn:HW; [|discriminate].
    injection Hget as <- <-.
    assert (Hfix : warnMissingIds (warnMissingIds st) = warnMissingIds st).
    { unfold warnMissingIds at 2.
      destruct (bool_decide (0 < List.length _)) eqn:Hlen.
      - unfold warnMissingIds. rewrite Hlen. reflexivity.
      - reflexivity. }
    assert (Harr : globalConnections (warnMissingIds st) = globalConnections st
                   ∧ getConnectionsFromSettings Workspace (warnMissingIds st)
                     = getConnectionsFromSettings Workspace st
                   ∧ globalGroups (warnMissingIds st) = globalGroups st
                   ∧ settingsWrites (warnMissingIds st) = settingsWrites st).
    { unfold warnMissingIds. by case_bool_decide. }
    destruct Harr as (Hc & Hw & Hg & Hwr).
    split; [done|]. split; [done|].
    rewrite getConnections_all, Hc, Hw, HG, HW, Hfix.
    unfold visible. by rewrite Hg.
  - rewrite getConnections_global in Hget.
    destruct (sortProfiles (globalConnections st)) as [G|] eqn:HG; [|discriminate].
    injection Hget as <- <-. repeat split.
    by rewrite getConnections_global, HG.
Qed.

(** *** Reading groups *)

Lemma filter_notRoot_isRoot (l : list Group.t) :
  List.filter (λ g, bool_decide (Group.id g = Some RootGroupId))
    (List.filter notRoot l) = [].
Proof.
  rewrite filter_filter_andb. induction l as [|g l IH]; simpl; [done|].
  unfold notRoot at 1. rewrite bool_decide_not.
  by destruct (bool_decide (Group.id g = Some RootGroupId)).
Qed.

(** X8: whatever is stored, the list [getGroups] returns starts with the
    hard-coded ROOT group and holds no other group with the ROOT id; the
    groups with another id are those stored in the layer read, in their
    order.  The call leaves the store as it is. *)
Theorem getGroups_one_root :
  ∀ (location : ConfigTarget) (st : Store),
    ∃ rest : list Group.t,
      getGroups location st = Return (getRootGroup :: rest) st
      ∧ List.filter (λ g, bool_decide (Group.id g = Some RootGroupId))
          (getRootGroup :: rest) = [getRootGroup]
      ∧ List.filter notRoot (getRootGroup :: rest)
        = List.filter notRoot (getGroupsFromSettings location st).
Proof.
  intros location st. eexists. split; [reflexivity|]. simpl.
  rewrite bool_decide_eq_true_2 by done.
  rewrite filter_notRoot_isRoot. split; [done|].
  unfold notRoot at 1. simpl. rewrite bool_decide_eq_false_2 by (by intros H).
  apply filter_filter_same.
Qed.

Lemma find_filter_implied {A} (f p : A → bool) (l : list A) :
  (∀ x, f x = true → p x = true) →
  List.find f (List.filter p l) = List.find f l.
Proof.
  intros Himp. induction l as [|x l IH]; simpl; [done|].
  destruct (p x) eqn:Hp; simpl.
  - by rewrite IH.
  - destruct (f x) eqn:Hf; [|done]. rewrite (Himp x Hf) in Hp. done.
Qed.

(** X9: [getGroupById] agrees with [getGroups]: it returns the first
    group with the id in the list [getGroups] returns for the global
    scope, the hard-coded ROOT group for the ROOT id even when a record
    with that id is stored. *)
Theorem getGroupById_agrees_with_getGroups :
  ∀ (id : string) (st : Store),
    ∃ groups : list Group.t,
      getGroups Global st = Return groups st
      ∧ getGroupById id st
        = Return (List.find (λ g, bool_decide (Group.id g = Some id)) groups) st.
Proof.
  intros id st. eexists. split; [reflexivity|].
  unfold getGroupById. unfold_M. simpl.
  case_bool_decide as Hid.
  - subst id. by rewrite bool_decide_eq_true_2.
  - rewrite bool_decide_eq_false_2 by congruence.
    rewrite find_filter_implied; [done|].
    intros g Hg. apply bool_decide_eq_true_1 in Hg.
    apply bool_decide_eq_true_2. congruence.
Qed.

(** *** Adding and updating groups *)

Lemma find_app_None {A} (f : A → bool) (l : list A) (x : A) :
  (∀ y, y ∈ l → f y = false) → f x = true →
  List.find f (l ++ [x]) = Some x.
Proof.
  intros Hnone Hx. induction l as [|y l IH]; simpl; [by rewrite Hx|].
  rewrite (Hnone y) by constructor. apply IH.
  intros z Hz. apply Hnone. by constructor.
Qed.

(** X10: [addGroup] of a group with an id of its own, other than ROOT
    and carried by no stored global group, to the user scope: the group is
    appended to the stored groups (any record with the ROOT id dropped), a
    missing parentId becomes the ROOT id, exactly one write is made, and
    [getGroupById] of that id then returns the group as stored. *)
Theorem addGroup_getGroupById_roundtrip :
  ∀ (st : Store) (id : string) (name parentId : jsval),
    id ≠ "" →
    id ≠ RootGroupId →
    (∀ g, g ∈ globalGroups st → Group.id g ≠ Some id) →
    ∃ st' : Store,
      let stored :=
        Group.mk (Some id) name
          (if truthy parentId then parentId else Some RootGroupId) in
      addGroup (Group.mk (Some id) name parentId) user st = Return tt st'
      ∧ globalGroups st' = List.filter notRoot (globalGroups st) ++ [stored]
      ∧ settingsWrites st' = S (settingsWrites st)
      ∧ globalConnections st' = globalConnections st
      ∧ getGroupById id st' = Return (Some stored) st'.
Proof.
  intros st id name parentId Hne Hroot Hfresh.
  unfold addGroup, getGroupById, writeConnectionGroupsToSettings. unfold_M.
  simpl.
  rewrite (bool_decide_eq_false_2 (Some id = Some RootGroupId)) by congruence.
  rewrite (bool_decide_eq_true_2 (id ≠ "")) by done. simpl.
  rewrite (bool_decide_eq_false_2 (id = RootGroupId)) by done.
  eexists. split; [reflexivity|]. simpl.
  repeat split; try by destruct (truthy parentId).
  f_equal.
  destruct (truthy parentId); simpl;
    (apply find_app_None; [|by apply bool_decide_eq_true_2]);
    intros g Hg; apply elem_of_List_filter in Hg as [Hg _];
    apply bool_decide_eq_false_2; by apply Hfresh.
Qed.

Lemma find_insert_findIndex {A} (f : A → bool) (l : list A) (i : nat) (x : A) :
  findIndex f l = Some i → f x = true →
  List.find f (<[i:=x]> l) = Some x ∧ i < List.length l.
Proof.
  revert i. induction l as [|y l IH]; intros i Hi Hx; simpl in Hi; [done|].
  destruct (f y) eqn:Hy.
  - injection Hi as <-. simpl. rewrite Hx. split; [done | lia].
  - destruct (findIndex f l) as [j|]; [|done]. injection Hi as <-.
    destruct (IH j eq_refl Hx) as [Hfind Hlt]. simpl. rewrite Hy.
    split; [done | lia].
Qed.

(** X11: [updateGroup] of a group whose id is not the ROOT id and is
    carried by no stored global group rejects with the not-found error and
    leaves the store as it is. *)
Theorem updateGroup_not_found :
  ∀ (st : Store) (updatedGroup : Group.t),
    Group.id updatedGroup ≠ Some RootGroupId →
    (∀ g, g ∈ globalGroups st → Group.id g ≠ Group.id updatedGroup) →
    updateGroup updatedGroup st
    = Throw (GroupNotFound (Group.id updatedGroup)) st.
Proof.
  intros st updatedGroup Hroot Hnone.
  unfold updateGroup. unfold_M. simpl.
  rewrite (bool_decide_eq_false_2 _ Hroot).
  rewrite findIndex_None; [done|].
  intros g Hg. apply elem_of_List_filter in Hg as [Hg _].
  apply bool_decide_eq_false_2. by apply Hnone.
Qed.

(** X12: [updateGroup] of a group whose id, other than ROOT, is carried
    by a stored global group fulfils after one write; the stored groups
    keep their number (records with the ROOT id apart, which are dropped),
    and [getGroupById] of the id then returns the updated group. *)
Theorem updateGroup_getGroupById_roundtrip :
  ∀ (st : Store) (updatedGroup : Group.t) (id : string),
    Group.id updatedGroup = Some id →
    id ≠ RootGroupId →
    (∃ g, g ∈ globalGroups st ∧ Group.id g = Some id) →
    ∃ st' : Store,
      updateGroup updatedGroup st = Return tt st'
      ∧ settingsWrites st' = S (settingsWrites st)
      ∧ List.length (globalGroups st')
        = List.length (List.filter notRoot (globalGroups st))
      ∧ (∀ g, g ∈ globalGroups st' → g = updatedGroup ∨ g ∈ globalGroups st)
      ∧ getGroupById id st' = Return (Some updatedGroup) st'.
Proof.
  intros st updatedGroup id Hid Hroot (g0 & Hg0 & Hg0id).
  unfold updateGroup, getGroupById, writeConnectionGroupsToSettings. unfold_M.
  simpl.
  rewrite (bool_decide_eq_false_2 (Group.id updatedGroup = Some RootGroupId))
    by congruence.
  rewrite (bool_decide_eq_false_2 (id = RootGroupId)) by done.
  set (groups := List.filter notRoot (globalGroups st)).
  destruct (findIndex_Some
              (λ g, bool_decide (Group.id g = Group.id updatedGroup)) groups g0)
    as [index Hindex].
  { apply elem_of_List_filter. split; [done|].
    apply bool_decide_eq_true_2. congruence. }
  { apply bool_decide_eq_true_2. congruence. }
  rewrite Hindex. eexists. split; [reflexivity|]. simpl.
  split; [done|]. split; [by rewrite length_insert|]. split.
  - intros g Hg. apply elem_of_list_insert_inv in Hg as [?|Hg]; [by left|].
    right. by apply elem_of_List_filter in Hg as [Hg _].
  - f_equal. rewrite Hid in Hindex.
    by apply (find_insert_findIndex _ _ _ _ Hindex), bool_decide_eq_true_2.
Qed.

(** *** Removing groups: cycles *)

Lemma getAllSubgroupIds_child (groups : list Group.t) (depth : nat)
    (groupId : jsval) (S : gset jsval) (g : Group.t) :
  getAllSubgroupIds (Datatypes.S depth) groups groupId = Some S →
  g ∈ groups → Group.parentId g = groupId →
  is_Some (getAllSubgroupIds depth groups (Group.id g)).
Proof.
  intros H Hg Hpar. simpl in H.
  by eapply collectSubgroups_children.
Qed.

Lemma getAllSubgroupIds_descend (groups : list Group.t) (depth : nat)
    (x y : jsval) (S : gset jsval) :
  getAllSubgroupIds depth groups x = Some S →
  inSubtree groups x y →
  ∃ depth' : nat, (depth' ≤ depth)%nat ∧ is_Some (getAllSubgroupIds depth' groups y).
Proof.
  intros H Hy. induction Hy as [|g Hg _ IH].
  - exists depth. split; [lia | by eexists].
  - destruct IH as (d & Hd & [S' HS']).
    destruct d as [|d]; [discriminate|].
    exists d. split; [lia|]. by eapply getAllSubgroupIds_child.
Qed.

Lemma getAllSubgroupIds_cycle (groups : list Group.t) (x : jsval) (g : Group.t) :
  g ∈ groups → Group.id g = x → inSubtree groups x (Group.parentId g) →
  ∀ depth, getAllSubgroupIds depth groups x = None.
Proof.
  intros Hg Hid Hcycle depth.
  induction (lt_wf depth) as [depth _ IH].
  destruct (getAllSubgroupIds depth groups x) as [S|] eqn:HS; [|done].
  destruct (getAllSubgroupIds_descend _ _ _ _ _ HS Hcycle) as (d & Hd & [S' HS']).
  destruct d as [|d]; [discriminate|].
  destruct (getAllSubgroupIds_child _ _ _ _ g HS' Hg eq_refl) as [S'' HS''].
  rewrite Hid, (IH d) in HS''; [discriminate | lia].
Qed.

(** X13: the walk of [removeGroup id "delete"] has no cycle guard.  When
    the parent of the target lies in the target's own subtree (the target
    is its own parent, or the parent links form a longer cycle through
    it), the recursion exhausts the call stack whatever its size: the call
    rejects with a [RangeError] and leaves the store as it is. *)
Theorem removeGroup_delete_cycle_overflows :
  ∀ (st : Store) (id : string) (g : Group.t),
    id ≠ RootGroupId →
    g ∈ globalGroups st →
    Group.id g = Some id →
    inSubtree (globalGroups st) (Some id) (Group.parentId g) →
    removeGroup id delete st = Throw RangeError st.
Proof.
  intros st id g Hid Hg Hgid Hcycle.
  unfold removeGroup. unfold_M. simpl.
  rewrite (bool_decide_eq_false_2 _ Hid).
  by rewrite (getAllSubgroupIds_cycle _ _ g Hg Hgid Hcycle).
Qed.

(** *** Removing groups: what is kept *)

Lemma existsb_negb_filter {A} (P : A → Prop) `{∀ x, Decision (P x)} (l : list A) :
  existsb (λ x, bool_decide (P x)) l = false →
  List.filter (λ x, bool_decide (¬ P x)) l = l.
Proof.
  intros Hex. apply filter_none_removed. rewrite <- Hex. clear Hex.
  induction l as [|c l IH]; simpl; [done|].
  by rewrite IH, bool_decide_not, negb_involutive.
Qed.

Lemma removeGroup_inv (st st' : Store) (id : string) (action : ContentAction)
    (b : bool) :
  removeGroup id action st = Return b st' →
  (b = false ∧ st' = st)
  ∨ (b = true ∧ id ≠ RootGroupId
     ∧ match action with
       | delete =>
           ∃ S : gset jsval,
             getAllSubgroupIds stackLimit (globalGroups st) (Some id) = Some S
             ∧ globalGroups st'
               = List.filter (λ g, bool_decide (Group.id g ∉ S) && notRoot g)
                   (globalGroups st)
             ∧ globalConnections st'
               = List.filter (λ c, bool_decide (Profile.groupId c ∉ S))
                   (globalConnections st)
       | move =>
           globalGroups st'
           = reparentGroup id <$>
               List.filter (λ g, bool_decide (Group.id g ≠ Some id) && notRoot g)
                 (globalGroups st)
           ∧ globalConnections st'
             = reparentConnection id <$> globalConnections st
       end).
Proof.
  unfold removeGroup. unfold_M. simpl.
  case_bool_decide as Hid; [intros H; injection H as <- <-; by left|].
  destruct action.
  - destruct (getAllSubgroupIds stackLimit (globalGroups st) (Some id))
      as [S|] eqn:HS; [|discriminate].
    simpl. case_bool_decide as Hlen; [intros H; injection H as <- <-; by left|].
    destruct (existsb _ (globalConnections st)) eqn:Hmod; simpl;
      intros H; injection H as <- <-; right; (split; [done|]);
      (split; [done|]); exists S; simpl; repeat split.
    symmetry. by apply (existsb_negb_filter (λ c, Profile.groupId c ∈ S)).
  - simpl. case_bool_decide as Hlen; [intros H; injection H as <- <-; by left|].
    destruct (existsb _ (globalConnections st)) eqn:Hmod; simpl;
      intros H; injection H as <- <-; right; (split; [done|]);
      (split; [done|]); simpl; repeat split.
    symmetry.
    by apply (fmap_none_changed _ (Profile.with_groupId (Some RootGroupId))).
Qed.

(** X14: [removeGroup] keeps the connections of the global scope
    resolvable, for either content action: when every stored global
    connection refers to ROOT or to a stored group before the call, so
    does every stored global connection after it. *)
Theorem removeGroup_keeps_connections_resolvable :
  ∀ (st st' : Store) (id : string) (action : ContentAction) (b : bool),
    removeGroup id action st = Return b st' →
    (∀ c, c ∈ globalConnections st →
          resolves (globalGroups st) (Profile.groupId c)) →
    ∀ c, c ∈ globalConnections st' →
         resolves (globalGroups st') (Profile.groupId c).
Proof.
  intros st st' id action b Hrun Hres c Hc.
  apply removeGroup_inv in Hrun as [[_ ->]|(_ & Hid & Hact)]; [by apply Hres|].
  destruct action.
  - destruct Hact as (S & _ & Hgroups & Hconns).
    rewrite Hconns in Hc. apply elem_of_List_filter in Hc as [Hc HcS].
    apply bool_decide_eq_true_1 in HcS.
    destruct (Hres c Hc) as [?|(g & Hg & Hgid)]; [by left|].
    destruct (decide (Group.id g = Some RootGroupId)) as [Hr|Hr];
      [left; congruence|].
    right. exists g. split; [|done]. rewrite Hgroups.
    apply elem_of_List_filter. split; [done|].
    unfold notRoot. rewrite !bool_decide_eq_true_2; [done | done | congruence].
  - destruct Hact as (Hgroups & Hconns).
    rewrite Hconns in Hc. apply list_elem_of_fmap in Hc as (c0 & -> & Hc0).
    unfold reparentConnection. case_bool_decide as Hcid; [by left|].
    destruct (Hres c0 Hc0) as [?|(g & Hg & Hgid)]; [by left|].
    destruct (decide (Group.id g = Some RootGroupId)) as [Hr|Hr];
      [left; congruence|].
    right. exists (reparentGroup id g). split.
    + rewrite Hgroups. apply list_elem_of_fmap. exists g. split; [done|].
      apply elem_of_List_filter. split; [done|].
      unfold notRoot. rewrite !bool_decide_eq_true_2; [done | done | congruence].
    + rewrite <- Hgid. unfold reparentGroup. by case_bool_decide.
Qed.

(** X15: [removeGroup] keeps the group tree closed, for either content
    action: when the parent of every stored group (records with the ROOT
    id apart) is ROOT or a stored group before the call, the same holds
    after it.  With [delete] no group is left below a removed group; with
    [move] the children of the removed group hang under ROOT. *)
Theorem removeGroup_keeps_parents_resolvable :
  ∀ (st st' : Store) (id : string) (action : ContentAction) (b : bool),
    removeGroup id action st = Return b st' →
    (∀ g, g ∈ globalGroups st → notRoot g = true →
          resolves (globalGroups st) (Group.parentId g)) →
    ∀ g, g ∈ globalGroups st' → notRoot g = true →
         resolves (globalGroups st') (Group.parentId g).
Proof.
  intros st st' id action b Hrun Hres g Hg Hnot.
  apply removeGroup_inv in Hrun as [[_ ->]|(_ & Hid & Hact)]; [by apply Hres|].
  destruct action.
  - destruct Hact as (S & HS & Hgroups & _).
    rewrite Hgroups in Hg |- *. apply elem_of_List_filter in Hg as [Hg HgS].
    apply andb_true_iff in HgS as [HgS _]. apply bool_decide_eq_true_1 in HgS.
    destruct (Hres g Hg Hnot) as [?|(h & Hh & Hhid)]; [by left|].
    destruct (decide (Group.id h = Some RootGroupId)) as [Hr|Hr];
      [left; congruence|].
    right. exists h. split; [|done].
    apply elem_of_List_filter. split; [done|].
    unfold notRoot. rewrite !bool_decide_eq_true_2; [done | done |].
    intros HhS. apply HgS.
    apply (getAllSubgroupIds_closed _ _ _ _ HS g Hg). congruence.
  - destruct Hact as (Hgroups & _).
    rewrite Hgroups in Hg |- *. apply list_elem_of_fmap in Hg as (g0 & -> & Hg0).
    apply elem_of_List_filter in Hg0 as [Hg0 Hkeep].
    apply andb_true_iff in Hkeep as [_ Hnot0].
    clear Hnot.
    destruct (decide (Group.parentId g0 = Some id)) as [Hpar|Hpar].
    { left. unfold reparentGroup. by rewrite (bool_decide_eq_true_2 _ Hpar). }
    replace (Group.parentId (reparentGroup id g0)) with (Group.parentId g0)
      by (unfold reparentGroup; by rewrite (bool_decide_eq_false_2 _ Hpar)).
    destruct (Hres g0 Hg0 Hnot0) as [?|(h & Hh & Hhid)]; [by left|].
    destruct (decide (Group.id h = Some RootGroupId)) as [Hr|Hr];
      [left; congruence|].
    right. exists (reparentGroup id h). split.
    + apply list_elem_of_fmap. exists h. split; [done|].
      apply elem_of_List_filter. split; [done|].
      unfold notRoot. rewrite !bool_decide_eq_true_2; [done | done | congruence].
    + rewrite <- Hhid. unfold reparentGroup. by case_bool_decide.
Qed.

Lemma filter_all {A} (f : A → bool) (l : list A) :
  (∀ x, x ∈ l → f x = true) → List.filter f l = l.
Proof.
  induction l as [|x l IH]; intros H; simpl; [done|].
  rewrite (H x) by constructor. f_equal. apply IH.
  intros y Hy. apply H. by constructor.
Qed.

Lemma collectSubgroups_no_children (rec : jsval → option (gset jsval))
    (groupId : jsval) (gs : list Group.t) (acc : gset jsval) :
  (∀ g, g ∈ gs → Group.parentId g ≠ groupId) →
  collectSubgroups rec groupId gs acc = Some acc.
Proof.
  induction gs as [|g gs IH]; intros H; simpl; [done|].
  rewrite bool_decide_eq_false_2 by (apply H; constructor).
  apply IH. intros h Hh. apply H. by constructor.
Qed.

(** X16: a removal is not repeated.  After [removeGroup] fulfilled with
    [true], the same call on the store it left fulfils with [false] and
    leaves that store as it is: no group with the id, and no child of it,
    is stored any more. *)
Theorem removeGroup_again :
  ∀ (st st' : Store) (id : string) (action : ContentAction),
    removeGroup id action st = Return true st' →
    removeGroup id action st' = Return false st'.
Proof.
  intros st st' id action Hrun.
  apply removeGroup_inv in Hrun as [[? _]|(_ & Hid & Hact)]; [done|].
  assert (Hkept : ∀ g, g ∈ globalGroups st' →
                       notRoot g = true ∧ Group.id g ≠ Some id
                       ∧ Group.parentId g ≠ Some id).
  { intros g Hg. destruct action.
    - destruct Hact as (S & HS & Hgroups & _).
      rewrite Hgroups in Hg. apply elem_of_List_filter in Hg as [Hg HgS].
      apply andb_true_iff in HgS as [HgS Hnot].
      apply bool_decide_eq_true_1 in HgS.
      pose proof (getAllSubgroupIds_root _ _ _ _ HS) as Hroot.
      repeat split; [done | congruence |].
      intros Hpar. apply HgS.
      apply (getAllSubgroupIds_closed _ _ _ _ HS g Hg). by rewrite Hpar.
    - destruct Hact as (Hgroups & _).
      rewrite Hgroups in Hg. apply list_elem_of_fmap in Hg as (g0 & -> & Hg0).
      apply elem_of_List_filter in Hg0 as [_ Hkeep].
      apply andb_true_iff in Hkeep as [Hne Hnot].
      apply bool_decide_eq_true_1 in Hne.
      unfold reparentGroup.
      destruct (decide (Group.parentId g0 = Some id)) as [Hpar|Hpar].
      + rewrite (bool_decide_eq_true_2 _ Hpar). simpl.
        repeat split; [done | done | congruence].
      + by rewrite (bool_decide_eq_false_2 _ Hpar). }
  unfold removeGroup. unfold_M. simpl.
  rewrite (bool_decide_eq_false_2 _ Hid).
  destruct action.
  - destruct Hact as (S & HS & _).
    destruct stackLimit as [|depth]; [discriminate|]. simpl.
    rewrite collectSubgroups_no_children by (intros g Hg; by apply Hkept).
    simpl. rewrite filter_all.
    + by rewrite bool_decide_eq_true_2.
    + intros g Hg. destruct (Hkept g Hg) as (Hnot & Hgid & _).
      rewrite Hnot, bool_decide_eq_true_2; [done|].
      intros Hin. by apply elem_of_singleton in Hin.
  - simpl. rewrite filter_all.
    + by rewrite length_fmap, bool_decide_eq_true_2.
    + intros g Hg. destruct (Hkept g Hg) as (Hnot & Hgid & _).
      by rewrite Hnot, bool_decide_eq_true_2.
Qed.

(** *** Updating connections *)

Lemma findIndex_first {A} (f : A → bool) (before after : list A) (x : A) :
  (∀ y, y ∈ before → f y = false) → f x = true →
  findIndex f (before ++ x :: after) = Some (List.length before).
Proof.
  intros Hbefore Hx. induction before as [|y before IH]; simpl.
  - by rewrite Hx.
  - rewrite (Hbefore y) by constructor. rewrite IH; [done|].
    intros z Hz. apply Hbefore. by constructor.
Qed.

(** X17: [updateConnection] replaces one profile: the first, in the list
    [getConnections(false)] returns, that carries the id of the argument.
    The profiles before and after it are written back as they are, also
    those that carry the same id. *)
Theorem updateConnection_replaces_first :
  ∀ (st : Store) (updatedProfile q : Profile.t) (before after : list Profile.t),
    getConnections false st = Return (before ++ q :: after) st →
    Profile.id q = Profile.id updatedProfile →
    (∀ x, x ∈ before → Profile.id x ≠ Profile.id updatedProfile) →
    ∃ st' : Store,
      updateConnection updatedProfile st = Return tt st'
      ∧ globalConnections st' = before ++ updatedProfile :: after
      ∧ settingsWrites st' = S (settingsWrites st).
Proof.
  intros st updatedProfile q before after Hget Hq Hbefore.
  unfold updateConnection, mbind, M_bind. rewrite Hget.
  rewrite (findIndex_first _ before after q).
  - eexists. split; [reflexivity|]. simpl. split; [|done].
    rewrite insert_app_r_alt by done. by rewrite Nat.sub_diag.
  - intros x Hx. apply bool_decide_eq_false_2. by apply Hbefore.
  - by apply bool_decide_eq_true_2.
Qed.

(** *** What initialization establishes *)

Lemma repairGroups_frame (legacyRootIds : list jsval) (validGroupIds : gset jsval)
    (gs : list Group.t) :
  ∀ st, ∃ r st',
    repairGroups legacyRootIds validGroupIds gs st = Return r st'
    ∧ st' = withRepairState (nextGuid st') (debugLog st') st.
Proof.
  induction gs as [|g gs IH]; intros st.
  - eexists _, st. split; [reflexivity|]. by rewrite withRepairState_id.
  - assert (Hone : ∃ r st1, repairGroup legacyRootIds validGroupIds g st
                            = Return r st1
                            ∧ st1 = withRepairState (nextGuid st1) (debugLog st1) st).
    { unfold repairGroup, logDebug, generateGuidM. unfold_M.
      destruct st; simpl.
      repeat (match goal with |- context [if ?b then _ else _] =>
                destruct b; simpl end);
        by eexists _, _. }
    destruct Hone as ([c g'] & st1 & Hrun1 & Hst1).
    destruct (IH st1) as ([cs gs'] & st2 & Hrun2 & Hst2).
    eexists _, st2. simpl. unfold mbind, M_bind. rewrite Hrun1, Hrun2.
    split; [reflexivity|]. by rewrite Hst2, Hst1 at 1.
Qed.

Lemma assignConnectionGroupMissingIds_frame (st st' : Store) :
  assignConnectionGroupMissingIds st = Return tt st' →
  globalConnections st' = globalConnections st
  ∧ workspaceConnections st' = workspaceConnections st
  ∧ workspaceFolderConnections st' = workspaceFolderConnections st
  ∧ workspaceGroups st' = workspaceGroups st
  ∧ workspaceFolderGroups st' = workspaceFolderGroups st.
Proof.
  unfold assignConnectionGroupMissingIds.
  unfold mbind at 1 2 3, M_bind at 1 2 3, gets. simpl.
  destruct (repairGroups_frame
              (Group.id <$> List.filter isLegacyRoot (globalGroups st))
              ({[Some RootGroupId]}
               ∪ list_to_set (Group.id <$> List.filter notRoot (globalGroups st)))
              (List.filter notRoot (globalGroups st)) st)
    as ([c gs'] & st1 & Hrun & Hst1).
  unfold mbind, M_bind. rewrite Hrun.
  destruct c; unfold_M; simpl; intros H; injection H as <-;
    rewrite Hst1; done.
Qed.

Lemma repairProfiles_frame (legacyRootIds : list jsval) (validGroupIds : gset jsval)
    (ps : list Profile.t) :
  ∀ st, ∃ r st',
    repairProfiles legacyRootIds validGroupIds ps st = Return r st'
    ∧ st' = withRepairState (nextGuid st') (debugLog st') st
    ∧ List.length r.2 = List.length ps.
Proof.
  induction ps as [|p ps IH]; intros st.
  - eexists _, st. split; [reflexivity|]. by rewrite withRepairState_id.
  - assert (Hone : ∃ r st1, repairProfile legacyRootIds validGroupIds p st
                            = Return r st1
                            ∧ st1 = withRepairState (nextGuid st1) (debugLog st1) st).
    { unfold repairProfile, populateMissingConnectionIds, addIdIfMissing,
        logDebug, generateGuidM. unfold_M.
      destruct st; simpl.
      repeat (match goal with |- context [if ?b then _ else _] =>
                destruct b; simpl end);
        by eexists _, _. }
    destruct Hone as ([c p'] & st1 & Hrun1 & Hst1).
    destruct (IH st1) as ([cs ps'] & st2 & Hrun2 & Hst2 & Hlen).
    eexists _, st2. simpl. unfold mbind, M_bind. rewrite Hrun1, Hrun2.
    split; [reflexivity|]. split; [by rewrite Hst2, Hst1 at 1|].
    simpl in *. by rewrite Hlen.
Qed.

Lemma assignConnectionMissingIds_frame (st st' : Store) :
  assignConnectionMissingIds st = Return tt st' →
  List.length (globalConnections st') = List.length (globalConnections st)
  ∧ workspaceConnections st' = workspaceConnections st
  ∧ workspaceFolderConnections st' = workspaceFolderConnections st
  ∧ workspaceGroups st' = workspaceGroups st
  ∧ workspaceFolderGroups st' = workspaceFolderGroups st.
Proof.
  unfold assignConnectionMissingIds.
  unfold mbind at 1 2, M_bind at 1 2, gets. simpl.
  destruct (repairProfiles_frame
              (Group.id <$> List.filter isLegacyRoot (globalGroups st))
              ({[Some RootGroupId]}
               ∪ list_to_set (Profile.groupId <$> globalConnections st))
              (globalConnections st) st)
    as ([c ps'] & st1 & Hrun & Hst1 & Hlen).
  unfold mbind, M_bind. rewrite Hrun.
  destruct c; unfold_M; simpl; intros H; injection H as <-;
    rewrite Hst1; done.
Qed.

Lemma assignConnectionGroupMissingIds_keeps (st st' : Store) :
  RootGroupId ≠ "" →
  (∀ k, generateGuid k ≠ "") →
  (∀ k, generateGuid k ≠ RootGroupId) →
  assignConnectionGroupMissingIds st = Return tt st' →
  Forall2 (groupKept (legacyRootIdsOf (globalGroups st)))
    (List.filter notRoot (globalGroups st))
    (List.filter notRoot (globalGroups st')).
Proof.
  intros Hroot Hguid Hguidroot. unfold assignConnectionGroupMissingIds.
  unfold mbind at 1 2 3, M_bind at 1 2 3, gets. simpl.
  fold (legacyRootIdsOf (globalGroups st)).
  fold (validGroupIdsOf (globalGroups st)).
  set (gs := List.filter notRoot (globalGroups st)).
  destruct (repairGroups_spec (legacyRootIdsOf (globalGroups st))
              (validGroupIdsOf (globalGroups st)) gs Hroot Hguid
              (root_valid _) (root_not_legacy _) st)
    as (c & gs' & st1 & Hrun & Hst1 & Hall & Hsame).
  unfold mbind, M_bind. rewrite Hrun.
  assert (Hrel : Forall2 (groupKept (legacyRootIdsOf (globalGroups st))) gs gs').
  { eapply Forall2_impl; [exact Hall|].
    intros g g' (Hname & Hid & Hpar & Hleg & _). split; [done|].
    split; [intros Ht; by rewrite Ht in Hid|]. split; [done|].
    intros Hin. destruct Hpar as [?|Hpar]; [done|]. by rewrite Hpar in Hleg. }
  destruct c; unfold_M; simpl; intros H; injection H as <-.
  - simpl. rewrite filter_all; [done|].
    intros g' Hg'.
    destruct (Forall2_elem_of_r _ _ _ _ Hall Hg') as (g & Hg & _ & Hid & _).
    apply elem_of_List_filter in Hg as [_ Hnot].
    apply bool_decide_eq_true_1 in Hnot. apply bool_decide_eq_true_2.
    destruct (truthy (Group.id g)); [congruence|].
    destruct Hid as [k ->]. intros [=]. by apply (Hguidroot k).
  - destruct (Hsame eq_refl) as [-> ->]. exact Hrel.
Qed.

(** X18: what initialization establishes in the global scope.  It
    fulfils and keeps every stored group (records with the ROOT id apart)
    in place, with its name, with its id when it had one, and with its
    parent or ROOT as parent, ROOT when the parent was a legacy ROOT
    group; afterwards each of them has a non-empty id and a parent that is
    ROOT or a stored group.  It keeps the number of stored profiles; afterwards each has an
    id and a groupId.  The workspace layers are left as they are.  The
    GUIDs handed out are taken to be non-empty, other than the ROOT id and
    not the id of a stored group, and the ROOT id to be non-empty. *)
Theorem initialize_repairs :
  RootGroupId ≠ "" →
  (∀ k, generateGuid k ≠ "") →
  (∀ k, generateGuid k ≠ RootGroupId) →
  ∀ st : Store,
    (∀ k g, g ∈ globalGroups st → Group.id g ≠ Some (generateGuid k)) →
    ∃ st1 : Store,
      initialize st = Return tt st1
      ∧ Forall2 (groupKept (legacyRootIdsOf (globalGroups st)))
          (List.filter notRoot (globalGroups st))
          (List.filter notRoot (globalGroups st1))
      ∧ (∀ g, g ∈ globalGroups st1 → notRoot g = true →
              truthy (Group.id g) = true
              ∧ resolves (globalGroups st1) (Group.parentId g))
      ∧ List.length (globalConnections st1) = List.length (globalConnections st)
      ∧ (∀ p, p ∈ globalConnections st1 →
              Profile.id p ≠ None ∧ Profile.groupId p ≠ None)
      ∧ workspaceConnections st1 = workspaceConnections st
      ∧ workspaceFolderConnections st1 = workspaceFolderConnections st
      ∧ workspaceGroups st1 = workspaceGroups st
      ∧ workspaceFolderGroups st1 = workspaceFolderGroups st.
Proof.
  intros Hroot Hguid Hguidroot st Hfresh.
  destruct (assignConnectionGroupMissingIds_spec st Hroot Hguid Hfresh)
    as (stg & Hrung & Hrep & Hconnsg).
  destruct (assignConnectionMissingIds_spec stg)
    as (st1 & evs & Hrunp & _ & _ & Hall & Hgroups).
  pose proof (assignConnectionGroupMissingIds_keeps _ _ Hroot Hguid Hguidroot Hrung)
    as Hkeeps.
  destruct (assignConnectionGroupMissingIds_frame _ _ Hrung)
    as (_ & Hg1 & Hg2 & Hg3 & Hg4).
  destruct (assignConnectionMissingIds_frame _ _ Hrunp)
    as (Hlen & Hp1 & Hp2 & Hp3 & Hp4).
  exists st1. unfold initialize, mbind, M_bind. rewrite Hrung, Hrunp.
  split; [done|]. rewrite Hgroups. split; [done|]. split.
  { intros g Hg Hnot.
    assert (Hin : g ∈ List.filter notRoot (globalGroups stg))
      by (by apply elem_of_List_filter).
    unfold groupsRepaired in Hrep.
    apply (proj1 (Forall_forall _ _) Hrep) in Hin as (_ & _ & Hvalid & Hid).
    split; [done|].
    apply elem_of_validGroupIdsOf in Hvalid as [?|(h & Hh & _ & Hhid)];
      [by left | right; eauto]. }
  split; [congruence|]. split.
  { intros p' Hp'.
    destruct (Forall2_elem_of_r _ _ _ _ Hall Hp') as (p & _ & Hgid & Hid).
    split; [done|]. rewrite Hgid. unfold repairedGroupId.
    repeat case_bool_decide; done. }
  repeat split; congruence.
Qed.

(** X19: [getConnections(true)] extends [getConnections(false)]: the
    list it returns is the list [getConnections(false)] returns on the
    same store, followed by profiles of the workspace scope, each with a
    non-empty id. *)
Theorem getConnections_workspace_extends_global :
  ∀ (st st' : Store) (l : list Profile.t),
    getConnections true st = Return l st' →
    ∃ view W : list Profile.t,
      getConnections false st = Return view st
      ∧ l = view ++ W
      ∧ ∀ w, w ∈ W →
             w ∈ getConnectionsFromSettings Workspace st
             ∧ truthy (Profile.id w) = true.
Proof.
  intros st st' l Hget. rewrite getConnections_all in Hget.
  rewrite getConnections_global.
  destruct (sortProfiles (globalConnections st)) as [G|]; [|discriminate].
  destruct (sortProfiles (List.filter _ _)) as [W|] eqn:HW; [|discriminate].
  injection Hget as <- _.
  exists (List.filter (visible st) G), (List.filter (visible st) W).
  split; [done|]. split; [apply List.filter_app|].
  intros w Hw. apply elem_of_List_filter in Hw as [Hw _].
  rewrite (sortProfiles_perm _ _ HW) in Hw.
  by apply elem_of_List_filter in Hw.
Qed.

End ConnectionConfig.

(** ** The statements on the concrete instance *)

Lemma sample_localeCompare_total (a b : string) :
  (0 ≤ Sample.localeCompare a b)%Z → (Sample.localeCompare b a ≤ 0)%Z.
Proof.
  unfold Sample.localeCompare.
  destruct (String_as_OT.compare_spec a b) as [Heq|Hlt|Hgt]; try lia.
  - intros _. rewrite <- Heq.
    destruct (String_as_OT.compare_spec a a) as [_|Hlt|Hlt]; try lia;
      by apply String_as_OT.lt_strorder in Hlt.
  - intros _. unfold String_as_OT.lt in Hgt. rewrite Hgt. lia.
Qed.

Lemma sample_localeCompare_trans (a b c : string) :
  (Sample.localeCompare a b ≤ 0)%Z → (Sample.localeCompare b c ≤ 0)%Z →
  (Sample.localeCompare a c ≤ 0)%Z.
Proof.
  unfold Sample.localeCompare.
  destruct (String_as_OT.compare_spec a b) as [->|Hab|Hab]; try lia.
  destruct (String_as_OT.compare_spec b c) as [<-|Hbc|Hbc]; try lia.
  - intros _ _. unfold String_as_OT.lt in Hab. rewrite Hab. lia.
  - intros _ _.
    assert (Hac : String_as_OT.lt a c)
      by (eapply (@transitivity _ _ (StrictOrder_Transitive (R := String_as_OT.lt))); eassumption).
    unfold String_as_OT.lt in Hac. rewrite Hac. lia.
Qed.

Lemma sample_generateGuid_nonempty (k : nat) : Sample.generateGuid k ≠ "".
Proof. unfold Sample.generateGuid. simpl. discriminate. Qed.

(** The integrity pass on the settings of an older version, and once more. *)
Lemma initialize_idempotent_witness :
  ∃ st1 : Store,
    initialize Sample.RootGroupId Sample.RootGroupName Sample.generateGuid
      Sample.legacy = Return tt st1
    ∧ initialize Sample.RootGroupId Sample.RootGroupName Sample.generateGuid
        st1 = Return tt st1.
Proof.
  apply (initialize_idempotent Sample.RootGroupId Sample.RootGroupName
           Sample.generateGuid).
  - discriminate.
  - apply sample_generateGuid_nonempty.
  - intros k g Hg. unfold Sample.generateGuid. simpl in *.
    repeat (apply elem_of_cons in Hg as [->|Hg]; [simpl; discriminate|]).
    by apply elem_of_nil in Hg.
Defined.

(** Deleting A in the tree ROOT → A → B: only ROOT is left, and no
    connection. *)
Lemma removeGroup_delete_removes_subtree_witness :
  ∃ st' : Store,
    removeGroup Sample.RootGroupId Sample.RootGroupName Sample.stackLimit
      "A" delete Sample.tree = Return true st'
    ∧ getGroups Sample.RootGroupId Sample.RootGroupName Global st'
      = Return [Group.mk (Some "ROOT") (Some "ROOT") None] st'
    ∧ globalConnections st' = [].
Proof.
  destruct (removeGroup_delete_removes_subtree Sample.RootGroupId
              Sample.RootGroupName Sample.stackLimit Sample.tree "A"
              Sample.treeHeight)
    as (S & st' & groups & HS & Hrun & Hbefore & Hafter & _ & Hconns & _).
  - discriminate.
  - eexists. split; [constructor | reflexivity].
  - intros g Hg. simpl in Hg.
    repeat (apply elem_of_cons in Hg as [->|Hg]; [vm_compute; lia|]).
    by apply elem_of_nil in Hg.
  - vm_compute. lia.
  - assert (HA : Some "A" ∈ S) by (apply HS; constructor).
    assert (HB : Some "B" ∈ S).
    { apply HS.
      apply (inSubtree_child _ _ (Group.mk (Some "B") (Some "b") (Some "A"))).
      - apply list_elem_of_further. constructor.
      - constructor. }
    exists st'. split; [exact Hrun|].
    vm_compute in Hbefore. injection Hbefore as <-.
    rewrite Hafter, Hconns. simpl.
    rewrite !bool_decide_eq_false_2 by (intros Hn; by apply Hn).
    split; reflexivity.
Defined.

(** The operations at the values of the instance. *)
Local Abbreviation sample_getConnections :=
  (getConnections Sample.RootGroupId Sample.RootGroupName
     Sample.SampleServerName Sample.localeCompare).
Local Abbreviation sample_getConnectionById :=
  (getConnectionById Sample.RootGroupId Sample.RootGroupName
     Sample.SampleServerName Sample.localeCompare).
Local Abbreviation sample_addConnection :=
  (addConnection Sample.RootGroupId Sample.isSameProfile Sample.generateGuid).
Local Abbreviation sample_removeConnection :=
  (removeConnection Sample.RootGroupId Sample.RootGroupName
     Sample.SampleServerName Sample.isSameProfile Sample.localeCompare).
Local Abbreviation sample_updateConnection :=
  (updateConnection Sample.RootGroupId Sample.RootGroupName
     Sample.SampleServerName Sample.localeCompare).
Local Abbreviation sample_removeGroup :=
  (removeGroup Sample.RootGroupId Sample.RootGroupName Sample.stackLimit).
Local Abbreviation sample_getGroups :=
  (getGroups Sample.RootGroupId Sample.RootGroupName).
Local Abbreviation sample_initialize :=
  (initialize Sample.RootGroupId Sample.RootGroupName Sample.generateGuid).

(** Moving the contents of A to ROOT in the tree ROOT → A → B: B hangs
    under ROOT, c1 sits in ROOT, c2 stays in B. *)
Lemma removeGroup_move_reparents_children_witness :
  ∃ st' : Store,
    sample_removeGroup "A" move Sample.tree = Return true st'
    ∧ sample_getGroups Global st'
      = Return [Group.mk (Some "ROOT") (Some "ROOT") None;
                Group.mk (Some "B") (Some "b") (Some "ROOT")] st'
    ∧ globalConnections st'
      = [Sample.server "c1" "ROOT" "alpha"; Sample.server "c2" "B" "beta"].
Proof.
  destruct (removeGroup_move_reparents_children Sample.RootGroupId
              Sample.RootGroupName Sample.stackLimit Sample.tree "A")
    as (st' & groups & Hrun & Hbefore & Hafter & _ & Hconns & _).
  - discriminate.
  - eexists. split; [constructor | reflexivity].
  - exists st'. split; [exact Hrun|].
    vm_compute in Hbefore. injection Hbefore as <-.
    split; [exact Hafter | exact Hconns].
Defined.

(** The sorted blocks of the store with profiles out of order: beta,
    alpha, gamma and a draft without connection information are stored in
    the global scope, aardvark in the workspace. *)
Lemma getConnections_global_then_workspace_sorted_witness :
  (∃ l st', sample_getConnections true Sample.mixed = Return l st')
  ∧ sample_getConnections true Sample.mixed
    = Return [Sample.server "c1" "ROOT" "alpha"; Sample.server "c2" "ROOT" "beta";
              Sample.server "c3" "ROOT" "gamma";
              Sample.server "w1" "ROOT" "aardvark"] Sample.mixed
  ∧ ∃ G W : list Profile.t,
      [Sample.server "c1" "ROOT" "alpha"; Sample.server "c2" "ROOT" "beta";
       Sample.server "c3" "ROOT" "gamma"; Sample.server "w1" "ROOT" "aardvark"]
      = G ++ W
      ∧ G ≡ₚ [Sample.server "c2" "ROOT" "beta"; Sample.server "c1" "ROOT" "alpha";
              Sample.server "c3" "ROOT" "gamma"]
      ∧ W ≡ₚ [Sample.server "w1" "ROOT" "aardvark"]
      ∧ StronglySorted (bySpecDisplayKey Sample.localeCompare) G
      ∧ StronglySorted (bySpecDisplayKey Sample.localeCompare) W.
Proof.
  destruct (getConnections_global_then_workspace_sorted Sample.RootGroupId
              Sample.RootGroupName Sample.SampleServerName Sample.localeCompare
              sample_localeCompare_total sample_localeCompare_trans Sample.mixed)
    as [Hreturns Hsorted].
  assert (Hget : sample_getConnections true Sample.mixed
                 = Return [Sample.server "c1" "ROOT" "alpha";
                           Sample.server "c2" "ROOT" "beta";
                           Sample.server "c3" "ROOT" "gamma";
                           Sample.server "w1" "ROOT" "aardvark"] Sample.mixed)
    by (vm_compute; reflexivity).
  split; [|split; [exact Hget|]].
  - apply Hreturns. intros p Hp. simpl in Hp.
    repeat (apply elem_of_cons in Hp as [->|Hp]; [discriminate|]).
    by apply elem_of_nil in Hp.
  - destruct (Hsorted _ _ Hget) as (G & W & Happ & HG & HW & HsG & HsW).
    exists G, W. split; [exact Happ|].
    split; [exact HG|]. split; [exact HW|]. split; [exact HsG | exact HsW].
Defined.

(** Updating a profile whose id is stored nowhere. *)
Lemma updateConnection_not_found_witness :
  sample_getConnections false Sample.mixed
  = Return [Sample.server "c1" "ROOT" "alpha"; Sample.server "c2" "ROOT" "beta";
            Sample.server "c3" "ROOT" "gamma"] Sample.mixed
  ∧ sample_updateConnection (Sample.server "c7" "ROOT" "omega") Sample.mixed
    = Throw (ConnectionNotFound (Some "c7")) Sample.mixed.
Proof.
  assert (Hget : sample_getConnections false Sample.mixed
                 = Return [Sample.server "c1" "ROOT" "alpha";
                           Sample.server "c2" "ROOT" "beta";
                           Sample.server "c3" "ROOT" "gamma"] Sample.mixed)
    by (vm_compute; reflexivity).
  split; [exact Hget|].
  apply (updateConnection_not_found Sample.RootGroupId Sample.RootGroupName
           Sample.SampleServerName Sample.localeCompare Sample.mixed Sample.mixed
           (Sample.server "c7" "ROOT" "omega") _ Hget).
  intros p Hp.
  repeat (apply elem_of_cons in Hp as [->|Hp]; [discriminate|]).
  by apply elem_of_nil in Hp.
Defined.

(** Adding a new profile to the store and reading it back by the id it
    was given. *)
Lemma addConnection_getConnectionById_roundtrip_witness :
  ∃ st'',
    sample_getConnectionById "guid-0"
      (storeOf (sample_addConnection Sample.fresh user Sample.mixed))
    = Return
        (Some (Profile.mk (Some "guid-0") (Some "ROOT") None (Some "delta") None []))
        st''.
Proof.
  apply (addConnection_getConnectionById_roundtrip Sample.RootGroupId
           Sample.RootGroupName Sample.SampleServerName Sample.isSameProfile
           Sample.localeCompare Sample.generateGuid Sample.mixed _ Sample.fresh).
  - vm_compute. reflexivity.
  - reflexivity.
  - vm_compute. reflexivity.
  - left. reflexivity.
  - intros q Hq _. simpl in Hq.
    repeat (apply elem_of_cons in Hq as [->|Hq]; [discriminate|]).
    by apply elem_of_nil in Hq.
  - intros q Hq. simpl in Hq.
    repeat (apply elem_of_cons in Hq as [->|Hq]; [discriminate|]).
    by apply elem_of_nil in Hq.
Defined.

(** C8 as stated fails: a profile with a name but neither server nor
    connection string is stored by [addConnection] and then hidden by the
    filter of [getConnections], so [getConnectionById] finds nothing. *)
Lemma addConnection_getConnectionById_counterexample :
  ¬ (∀ (st st' : Store) (p p' : Profile.t) (i : string),
       sample_addConnection p user st = Return p' st' →
       Profile.id p' = Some i →
       ∃ q st'',
         sample_getConnectionById i st' = Return (Some q) st''
         ∧ Sample.isSameProfile q p' = true).
Proof.
  intros Hclaim.
  destruct (Hclaim Sample.emptyStore
              (mkStore [Sample.draft] [] [] [] [] [] false 0 1 [])
              Sample.draft Sample.draft "c9" eq_refl eq_refl)
    as (q & st'' & Hget & _).
  vm_compute in Hget. discriminate.
Qed.


(** C7: the failing inputs.  First, a persisted record carries the ROOT
    id; the integrity pass leaves the store as it is; [removeGroup] of an
    id that matches no stored group then fulfils with [true] and writes the
    groups array, for either content action.  Second, [addGroup] stores a
    group whose parentId names no group; [removeGroup] of that parentId
    with the action [delete] matches no stored group either, and yet
    removes the stored group, writes and fulfils with [true]. *)
Theorem removeGroup_unknown_id_returns_true :
  (sample_initialize Sample.persistedRoot = Return tt Sample.persistedRoot
   ∧ sample_removeGroup "missing" move Sample.persistedRoot
     = Return true (mkStore [] [] [] [] [] [] false 0 1 [])
   ∧ sample_removeGroup "missing" delete Sample.persistedRoot
     = Return true (mkStore [] [] [] [] [] [] false 0 1 []))
  ∧ (addGroup Sample.RootGroupId Sample.generateGuid Sample.dangling user
       Sample.emptyStore
     = Return tt (mkStore [] [] [] [Sample.dangling] [] [] false 0 1 [])
     ∧ sample_removeGroup "missing" delete
         (mkStore [] [] [] [Sample.dangling] [] [] false 0 1 [])
       = Return true (mkStore [] [] [] [] [] [] false 0 2 [])).
Proof. repeat split; vm_compute; reflexivity. Qed.

(** ** The registry of query runners: properties *)

Lemma mapSet_keys (key : string) (value : QueryRunner.Ref)
    (m : list (string * QueryRunner.Ref)) :
  (QueryRunner.mapSet key value m).*1
  = if bool_decide (key ∈ m.*1) then m.*1 else m.*1 ++ [key].
Proof.
  induction m as [|[k v] m IH]; [done|]. cbn [QueryRunner.mapSet fmap list_fmap fst].
  destruct (decide (k = key)) as [->|Hne].
  - rewrite !bool_decide_eq_true_2; [done | constructor | done].
  - rewrite (bool_decide_eq_false_2 (k = key)) by done.
    cbn [fmap list_fmap fst]. rewrite IH.
    destruct (decide (key ∈ m.*1)) as [Hin|Hnin].
    + rewrite !bool_decide_eq_true_2; [done | by constructor | done].
    + rewrite !bool_decide_eq_false_2; [done | | done].
      intros [?|?]%elem_of_cons; [congruence | done].
Qed.

Lemma mapSet_elem_of (key : string) (value : QueryRunner.Ref)
    (m : list (string * QueryRunner.Ref)) (e : string * QueryRunner.Ref) :
  e ∈ QueryRunner.mapSet key value m → e = (key, value) ∨ e ∈ m.
Proof.
  induction m as [|[k v] m IH]; simpl.
  - intros ->%list_elem_of_singleton. by left.
  - case_bool_decide.
    + intros [->|?]%elem_of_cons; [by left | right; by constructor].
    + intros [->|He]%elem_of_cons; [right; constructor|].
      destruct (IH He); [by left | right; by constructor].
Qed.

Lemma mapDelete_keys_NoDup (key : string)
    (m : list (string * QueryRunner.Ref)) :
  NoDup m.*1 → NoDup (QueryRunner.mapDelete key m).*1.
Proof.
  unfold QueryRunner.mapDelete.
  induction m as [|[k v] m IH]; intros Hnodup; [done|].
  cbn [fmap list_fmap fst] in Hnodup.
  apply NoDup_cons in Hnodup as [Hk Hm]. simpl.
  case_bool_decide; [|by apply IH].
  cbn [fmap list_fmap fst]. apply NoDup_cons. split; [|by apply IH].
  intros Hin. apply Hk. apply list_elem_of_fmap in Hin as (e & -> & He).
  apply elem_of_List_filter in He as [He _].
  apply list_elem_of_fmap. eauto.
Qed.

Lemma heapSet_id (h : QueryRunner.Heap) (r : QueryRunner.Ref)
    (v : QueryRunner.Info.t) :
  QueryRunner.Info.id v = QueryRunner.Info.id (h r) →
  ∀ r', QueryRunner.Info.id (QueryRunner.heapSet r v h r')
        = QueryRunner.Info.id (h r').
Proof.
  intros Hid r'. unfold QueryRunner.heapSet. case_bool_decide; [by subst | done].
Qed.

(** Every key is the id of the object registered under it. *)
Lemma call_keeps_keys (c : QueryRunner.Call) (h : QueryRunner.Heap)
    (mgr : QueryRunner.Manager) :
  QueryRunner.keepsId c →
  NoDup (QueryRunner.queryRunners mgr).*1 →
  Forall (λ e, QueryRunner.Info.id (h e.2) = e.1) (QueryRunner.queryRunners mgr) →
  NoDup (QueryRunner.queryRunners (QueryRunner.call c (h, mgr)).2).*1
  ∧ Forall (λ e, QueryRunner.Info.id ((QueryRunner.call c (h, mgr)).1 e.2) = e.1)
      (QueryRunner.queryRunners (QueryRunner.call c (h, mgr)).2).
Proof.
  intros Hkeeps Hnodup Hkeyed.
  assert (Hheap : ∀ h' : QueryRunner.Heap,
             (∀ r, QueryRunner.Info.id (h' r) = QueryRunner.Info.id (h r)) →
             Forall (λ e, QueryRunner.Info.id (h' e.2) = e.1)
               (QueryRunner.queryRunners mgr)).
  { intros h' Hh'. eapply Forall_impl; [exact Hkeyed|].
    intros e He. simpl. by rewrite Hh'. }
  destruct c as [info|id step|id|r f]; simpl.
  - split.
    + rewrite mapSet_keys. case_bool_decide; [done|].
      apply NoDup_app. repeat split; [done | | apply NoDup_singleton].
      intros x Hx ->%list_elem_of_singleton. done.
    + apply Forall_forall. intros e [->|He]%mapSet_elem_of; [done|].
      by apply (proj1 (Forall_forall _ _) Hkeyed).
  - unfold QueryRunner.appendStep.
    destruct (QueryRunner.mapGet id _) as [runner|]; [|done].
    simpl. split; [done|]. apply Hheap. by apply heapSet_id.
  - split.
    + by apply mapDelete_keys_NoDup.
    + apply Forall_forall. intros e He.
      apply elem_of_List_filter in He as [He _].
      by apply (proj1 (Forall_forall _ _) Hkeyed).
  - split; [done|]. apply Hheap. apply heapSet_id. apply Hkeeps.
Qed.

(** X20: as long as no client writes the [id] of an object, [getAll]
    lists runners with pairwise distinct ids, whatever calls were made on
    the manager since it was created and whatever else the clients wrote to
    the objects they passed in. *)
Theorem getAll_distinct_ids :
  ∀ (cs : list QueryRunner.Call) (h : QueryRunner.Heap),
    Forall QueryRunner.keepsId cs →
    NoDup (QueryRunner.ids (QueryRunner.calls cs (h, QueryRunner.empty)).1
             (QueryRunner.getAll
                (QueryRunner.calls cs (h, QueryRunner.empty)).2)).
Proof.
  intros cs h Hkeeps.
  assert (Hinv : ∀ s : QueryRunner.Heap * QueryRunner.Manager,
             NoDup (QueryRunner.queryRunners s.2).*1 →
             Forall (λ e, QueryRunner.Info.id (s.1 e.2) = e.1)
               (QueryRunner.queryRunners s.2) →
             NoDup (QueryRunner.queryRunners (QueryRunner.calls cs s).2).*1
             ∧ Forall (λ e, QueryRunner.Info.id ((QueryRunner.calls cs s).1 e.2) = e.1)
                 (QueryRunner.queryRunners (QueryRunner.calls cs s).2)).
  { induction Hkeeps as [|c cs Hc _ IH]; intros [h0 mgr] Hnodup Hkeyed; [done|].
    destruct (call_keeps_keys c h0 mgr Hc Hnodup Hkeyed). by apply IH. }
  destruct (Hinv (h, QueryRunner.empty)) as [Hnodup Hkeyed];
    [apply NoDup_nil_2 | constructor |].
  unfold QueryRunner.getAll, QueryRunner.ids.
  destruct (QueryRunner.calls cs (h, QueryRunner.empty)) as [h' mgr']. simpl in *.
  replace ((λ r, QueryRunner.Info.id (h' r)) <$> (QueryRunner.queryRunners mgr').*2)
    with (QueryRunner.queryRunners mgr').*1; [done|].
  clear Hnodup.
  induction Hkeyed as [|[k v] m Hkv _ IH]; simpl in *; [done|].
  rewrite Hkv. f_equal. exact IH.
Qed.

Lemma mapGet_first (key : string) (before after : list (string * QueryRunner.Ref))
    (v : QueryRunner.Ref) :
  (∀ e, e ∈ before → e.1 ≠ key) →
  QueryRunner.mapGet key (before ++ (key, v) :: after) = Some v.
Proof.
  intros Hbefore. induction before as [|[k v'] before IH]; simpl.
  - by rewrite bool_decide_eq_true_2.
  - rewrite bool_decide_eq_false_2 by (apply (Hbefore (k, v')); constructor).
    apply IH. intros e He. apply Hbefore. by constructor.
Qed.

Lemma mapSet_first (key : string) (before after : list (string * QueryRunner.Ref))
    (v value : QueryRunner.Ref) :
  (∀ e, e ∈ before → e.1 ≠ key) →
  QueryRunner.mapSet key value (before ++ (key, v) :: after)
  = before ++ (key, value) :: after.
Proof.
  intros Hbefore. induction before as [|[k v'] before IH]; simpl.
  - by rewrite bool_decide_eq_true_2.
  - rewrite bool_decide_eq_false_2 by (apply (Hbefore (k, v')); constructor).
    f_equal. apply IH. intros e He. apply Hbefore. by constructor.
Qed.

Lemma mapGet_None (key : string) (m : list (string * QueryRunner.Ref)) :
  (∀ e, e ∈ m → e.1 ≠ key) → QueryRunner.mapGet key m = None.
Proof.
  induction m as [|[k v] m IH]; intros H; simpl; [done|].
  rewrite bool_decide_eq_false_2 by (apply (H (k, v)); constructor).
  apply IH. intros e He. apply H. by constructor.
Qed.

Lemma mapSet_fresh (key : string) (value : QueryRunner.Ref)
    (m : list (string * QueryRunner.Ref)) :
  (∀ e, e ∈ m → e.1 ≠ key) → QueryRunner.mapSet key value m = m ++ [(key, value)].
Proof.
  induction m as [|[k v] m IH]; intros H; simpl; [done|].
  rewrite bool_decide_eq_false_2 by (apply (H (k, v)); constructor).
  f_equal. apply IH. intros e He. apply H. by constructor.
Qed.

(** X21: [appendStep] on a registered id writes to the object registered
    under it: the step goes to the end of the steps of that object (an
    object without steps gets the step as its only one), no other object
    and no entry of the map is changed, and one change event is fired.  The
    object is written in place, so the step shows wherever the object is
    held, also under another key of the map.  On an id that is not
    registered the call changes nothing and fires no event. *)
Theorem appendStep_extends_runner :
  ∀ (h : QueryRunner.Heap) (mgr : QueryRunner.Manager) (id : string)
    (step : QueryRunner.Step.t),
    (∀ (before after : list (string * QueryRunner.Ref))
       (runner : QueryRunner.Ref),
       QueryRunner.queryRunners mgr = before ++ (id, runner) :: after →
       (∀ e, e ∈ before → e.1 ≠ id) →
       ∃ h' : QueryRunner.Heap,
         QueryRunner.appendStep id step h mgr
         = (h', QueryRunner.mkManager (QueryRunner.queryRunners mgr)
                  (S (QueryRunner.changesFired mgr)))
         ∧ h' runner
           = QueryRunner.Info.with_steps
               (Some (default [] (QueryRunner.Info.steps (h runner)) ++ [step]))
               (h runner)
         ∧ (∀ r, r ≠ runner → h' r = h r)
         ∧ (∀ e, e ∈ QueryRunner.queryRunners mgr → e.2 = runner →
                 QueryRunner.Info.steps (h' e.2)
                 = Some (default [] (QueryRunner.Info.steps (h runner)) ++ [step])))
    ∧ ((∀ e, e ∈ QueryRunner.queryRunners mgr → e.1 ≠ id) →
       QueryRunner.appendStep id step h mgr = (h, mgr)).
Proof.
  intros h mgr id step. split.
  - intros before after runner Hm Hbefore. unfold QueryRunner.appendStep.
    rewrite Hm, mapGet_first by done. rewrite <- Hm.
    eexists. split; [reflexivity|].
    assert (Hrunner : QueryRunner.heapSet runner
                        (QueryRunner.Info.with_steps
                           (Some match QueryRunner.Info.steps (h runner) with
                                 | Some steps => steps ++ [step]
                                 | None => [step]
                                 end) (h runner)) h runner
                      = QueryRunner.Info.with_steps
                          (Some (default [] (QueryRunner.Info.steps (h runner))
                                 ++ [step])) (h runner)).
    { unfold QueryRunner.heapSet. rewrite bool_decide_eq_true_2 by done.
      by destruct (QueryRunner.Info.steps (h runner)). }
    split; [exact Hrunner|]. split.
    + intros r Hr. unfold QueryRunner.heapSet.
      by rewrite bool_decide_eq_false_2.
    + intros e _ ->. by rewrite Hrunner.
  - intros Hnone. unfold QueryRunner.appendStep. by rewrite mapGet_None.
Qed.

(** X22: [updateQueryRunner] registers an object under the id it has at
    the call: an object whose id is no key yet goes to the end of
    [getAll], and [removeQueryRunner] of that id gives back the list of
    before; an object whose id is a key takes the place of the one
    registered under it, the others and the order being kept.  Each call
    fires one change event. *)
Theorem updateQueryRunner_registers :
  ∀ (h : QueryRunner.Heap) (mgr : QueryRunner.Manager) (info : QueryRunner.Ref),
    QueryRunner.changesFired (QueryRunner.updateQueryRunner info h mgr)
    = S (QueryRunner.changesFired mgr)
    ∧ ((∀ e, e ∈ QueryRunner.queryRunners mgr →
             e.1 ≠ QueryRunner.Info.id (h info)) →
       QueryRunner.getAll (QueryRunner.updateQueryRunner info h mgr)
       = QueryRunner.getAll mgr ++ [info]
       ∧ QueryRunner.getAll
           (QueryRunner.removeQueryRunner (QueryRunner.Info.id (h info))
              (QueryRunner.updateQueryRunner info h mgr))
         = QueryRunner.getAll mgr)
    ∧ (∀ (before after : list (string * QueryRunner.Ref))
         (old : QueryRunner.Ref),
         QueryRunner.queryRunners mgr
         = before ++ (QueryRunner.Info.id (h info), old) :: after →
         (∀ e, e ∈ before → e.1 ≠ QueryRunner.Info.id (h info)) →
         QueryRunner.getAll (QueryRunner.updateQueryRunner info h mgr)
         = before.*2 ++ info :: after.*2).
Proof.
  intros h mgr info. split; [done|]. split.
  - intros Hfresh. unfold QueryRunner.getAll, QueryRunner.removeQueryRunner,
      QueryRunner.updateQueryRunner, QueryRunner.mapDelete. simpl.
    rewrite mapSet_fresh by done. split; [by rewrite fmap_app|].
    rewrite List.filter_app. simpl.
    rewrite bool_decide_eq_false_2 by (by intros H). rewrite app_nil_r.
    f_equal. apply filter_all. intros e He. apply bool_decide_eq_true_2.
    by apply Hfresh.
  - intros before after old Hm Hbefore.
    unfold QueryRunner.getAll, QueryRunner.updateQueryRunner. simpl.
    rewrite Hm, mapSet_first by done. by rewrite fmap_app.
Qed.

(** X23: the map keeps an object under the id it had when it was
    registered.  When a client registers an object, writes another id to
    it and registers it again, the object is registered under both ids:
    [getAll] lists it twice, two entries with the same id. *)
Theorem getAll_lists_renamed_runner_twice :
  ∀ (h : QueryRunner.Heap) (r : QueryRunner.Ref)
    (f : QueryRunner.Info.t → QueryRunner.Info.t),
    QueryRunner.Info.id (f (h r)) ≠ QueryRunner.Info.id (h r) →
    ∃ (h' : QueryRunner.Heap) (mgr' : QueryRunner.Manager),
      QueryRunner.calls
        [QueryRunner.UpdateQueryRunner r; QueryRunner.Assign r f;
         QueryRunner.UpdateQueryRunner r] (h, QueryRunner.empty)
      = (h', mgr')
      ∧ QueryRunner.queryRunners mgr'
        = [(QueryRunner.Info.id (h r), r); (QueryRunner.Info.id (f (h r)), r)]
      ∧ QueryRunner.getAll mgr' = [r; r]
      ∧ QueryRunner.ids h' (QueryRunner.getAll mgr')
        = [QueryRunner.Info.id (f (h r)); QueryRunner.Info.id (f (h r))].
Proof.
  intros h r f Hid. eexists _, _. split; [reflexivity|].
  assert (Hr : QueryRunner.heapSet r (f (h r)) h r = f (h r)).
  { unfold QueryRunner.heapSet. by rewrite bool_decide_eq_true_2. }
  cbn [QueryRunner.calls fold_left QueryRunner.call fst snd
         QueryRunner.updateQueryRunner QueryRunner.empty
         QueryRunner.queryRunners QueryRunner.mapSet QueryRunner.getAll
         QueryRunner.ids].
  rewrite !Hr. rewrite bool_decide_eq_false_2 by (intros H; by apply Hid).
  unfold QueryRunner.getAll, QueryRunner.ids, QueryRunner.updateQueryRunner.
  simpl. rewrite !Hr.
  rewrite bool_decide_eq_false_2 by (intros H; by apply Hid).
  simpl. by rewrite !Hr.
Qed.

(** ** The further properties on the concrete instance *)

Local Abbreviation sample_addGroup :=
  (addGroup Sample.RootGroupId Sample.generateGuid).
Local Abbreviation sample_updateGroup := (updateGroup Sample.RootGroupId).
Local Abbreviation sample_getGroupById :=
  (getGroupById Sample.RootGroupId Sample.RootGroupName).

(** Adding the new profile a second time. *)
Lemma addConnection_again_witness :
  ∃ st'' : Store,
    sample_addConnection
      (Profile.mk (Some "guid-0") (Some "ROOT") None (Some "delta") None [])
      user (storeOf (sample_addConnection Sample.fresh user Sample.mixed))
    = Return (Profile.mk (Some "guid-0") (Some "ROOT") None (Some "delta") None [])
        st''
    ∧ globalConnections st''
      = globalConnections
          (storeOf (sample_addConnection Sample.fresh user Sample.mixed)).
Proof.
  destruct (addConnection_again Sample.RootGroupId Sample.isSameProfile
              Sample.generateGuid Sample.fresh
              (Profile.mk (Some "guid-0") (Some "ROOT") None (Some "delta") None [])
              Sample.mixed
              (storeOf (sample_addConnection Sample.fresh user Sample.mixed)))
    as (st'' & Hrun & Hconns & _).
  - vm_compute. reflexivity.
  - vm_compute. reflexivity.
  - exists st''. split; [exact Hrun | exact Hconns].
Defined.

(** Removing a profile that is stored nowhere. *)
Lemma removeConnection_not_found_witness :
  sample_removeConnection (Sample.server "c7" "ROOT" "omega") Sample.mixed
  = Return false Sample.mixed.
Proof.
  apply (removeConnection_not_found Sample.RootGroupId Sample.RootGroupName
           Sample.SampleServerName Sample.isSameProfile Sample.localeCompare
           Sample.mixed (Sample.server "c7" "ROOT" "omega")
           [Sample.server "c1" "ROOT" "alpha"; Sample.server "c2" "ROOT" "beta";
            Sample.server "c3" "ROOT" "gamma"]).
  - vm_compute. reflexivity.
  - intros q Hq.
    repeat (apply elem_of_cons in Hq as [->|Hq]; [vm_compute; reflexivity|]).
    by apply elem_of_nil in Hq.
Defined.

(** Removing a stored profile twice. *)
Lemma removeConnection_again_witness :
  sample_removeConnection (Sample.server "c3" "ROOT" "gamma")
    (storeOf (sample_removeConnection (Sample.server "c3" "ROOT" "gamma")
                Sample.mixed))
  = Return false
      (storeOf (sample_removeConnection (Sample.server "c3" "ROOT" "gamma")
                  Sample.mixed)).
Proof.
  apply (removeConnection_again Sample.RootGroupId Sample.RootGroupName
           Sample.SampleServerName Sample.isSameProfile Sample.localeCompare
           Sample.mixed).
  vm_compute. reflexivity.
Defined.

(** Looking up a stored global profile. *)
Lemma getConnectionById_result_witness :
  hasConnectionInfo Sample.SampleServerName (Sample.server "c1" "ROOT" "alpha")
  = true
  ∧ (Sample.server "c1" "ROOT" "alpha" ∈ getConnectionsFromSettings Global Sample.mixed
     ∨ (Sample.server "c1" "ROOT" "alpha"
          ∈ getConnectionsFromSettings Workspace Sample.mixed
        ∧ ∀ q', q' ∈ getConnectionsFromSettings Global Sample.mixed →
                visible Sample.RootGroupId Sample.RootGroupName
                  Sample.SampleServerName Sample.mixed q' = true →
                Profile.id q' ≠ Some "c1")).
Proof.
  destruct (getConnectionById_result Sample.RootGroupId Sample.RootGroupName
              Sample.SampleServerName Sample.localeCompare Sample.mixed
              Sample.mixed "c1" (Some (Sample.server "c1" "ROOT" "alpha")))
    as (_ & Hinfo & _ & Hwhere).
  - vm_compute. reflexivity.
  - split; [exact Hinfo | exact Hwhere].
Defined.

(** Reading all connections twice. *)
Lemma getConnections_reads_only_witness :
  sample_getConnections true Sample.mixed
  = Return [Sample.server "c1" "ROOT" "alpha"; Sample.server "c2" "ROOT" "beta";
            Sample.server "c3" "ROOT" "gamma"; Sample.server "w1" "ROOT" "aardvark"]
      Sample.mixed.
Proof.
  apply (getConnections_reads_only Sample.RootGroupId Sample.RootGroupName
           Sample.SampleServerName Sample.localeCompare Sample.mixed
           Sample.mixed true).
  vm_compute. reflexivity.
Defined.

(** Adding a group C under A to the tree ROOT → A → B. *)
Lemma addGroup_getGroupById_roundtrip_witness :
  ∃ st' : Store,
    sample_addGroup (Group.mk (Some "C") (Some "c") (Some "A")) user Sample.tree
    = Return tt st'
    ∧ sample_getGroupById "C" st'
      = Return (Some (Group.mk (Some "C") (Some "c") (Some "A"))) st'.
Proof.
  destruct (addGroup_getGroupById_roundtrip Sample.RootGroupId
              Sample.RootGroupName Sample.generateGuid Sample.tree "C"
              (Some "c") (Some "A"))
    as (st' & Hrun & _ & _ & _ & Hget).
  - discriminate.
  - discriminate.
  - intros g Hg. simpl in Hg.
    repeat (apply elem_of_cons in Hg as [->|Hg]; [discriminate|]).
    by apply elem_of_nil in Hg.
  - exists st'. split; [exact Hrun | exact Hget].
Defined.

(** Updating a group that is not stored. *)
Lemma updateGroup_not_found_witness :
  sample_updateGroup (Group.mk (Some "Z") (Some "z") (Some "ROOT")) Sample.tree
  = Throw (GroupNotFound (Some "Z")) Sample.tree.
Proof.
  apply (updateGroup_not_found Sample.RootGroupId Sample.tree
           (Group.mk (Some "Z") (Some "z") (Some "ROOT"))).
  - discriminate.
  - intros g Hg. simpl in Hg.
    repeat (apply elem_of_cons in Hg as [->|Hg]; [discriminate|]).
    by apply elem_of_nil in Hg.
Defined.

(** Renaming B and hanging it under ROOT. *)
Lemma updateGroup_getGroupById_roundtrip_witness :
  ∃ st' : Store,
    sample_updateGroup (Group.mk (Some "B") (Some "bee") (Some "ROOT")) Sample.tree
    = Return tt st'
    ∧ sample_getGroupById "B" st'
      = Return (Some (Group.mk (Some "B") (Some "bee") (Some "ROOT"))) st'.
Proof.
  destruct (updateGroup_getGroupById_roundtrip Sample.RootGroupId
              Sample.RootGroupName Sample.tree
              (Group.mk (Some "B") (Some "bee") (Some "ROOT")) "B")
    as (st' & Hrun & _ & _ & _ & Hget).
  - reflexivity.
  - discriminate.
  - eexists. split; [apply list_elem_of_further; constructor | reflexivity].
  - exists st'. split; [exact Hrun | exact Hget].
Defined.

(** Deleting A when A and B are each other's parent. *)
Lemma removeGroup_delete_cycle_overflows_witness :
  sample_removeGroup "A" delete Sample.cyclic = Throw RangeError Sample.cyclic.
Proof.
  apply (removeGroup_delete_cycle_overflows Sample.RootGroupId
           Sample.RootGroupName Sample.stackLimit Sample.cyclic "A"
           (Group.mk (Some "A") (Some "a") (Some "B"))).
  - discriminate.
  - constructor.
  - reflexivity.
  - apply (inSubtree_child _ _ (Group.mk (Some "B") (Some "b") (Some "A"))).
    + apply list_elem_of_further. constructor.
    + constructor.
Defined.

Lemma sample_tree_connections_resolve (c : Profile.t) :
  c ∈ globalConnections Sample.tree →
  resolves Sample.RootGroupId (globalGroups Sample.tree) (Profile.groupId c).
Proof.
  intros Hc. simpl in Hc.
  apply elem_of_cons in Hc as [->|Hc].
  { right. eexists. split; [constructor | reflexivity]. }
  apply elem_of_cons in Hc as [->|Hc].
  { right. eexists. split; [apply list_elem_of_further; constructor | reflexivity]. }
  by apply elem_of_nil in Hc.
Qed.

Lemma sample_tree_parents_resolve (g : Group.t) :
  g ∈ globalGroups Sample.tree →
  notRoot Sample.RootGroupId g = true →
  resolves Sample.RootGroupId (globalGroups Sample.tree) (Group.parentId g).
Proof.
  intros Hg _. simpl in Hg.
  apply elem_of_cons in Hg as [->|Hg]; [by left|].
  apply elem_of_cons in Hg as [->|Hg].
  { right. eexists. split; [constructor | reflexivity]. }
  by apply elem_of_nil in Hg.
Qed.

(** After A is removed with its contents moved, c1 refers to ROOT. *)
Lemma removeGroup_keeps_connections_resolvable_witness :
  resolves Sample.RootGroupId
    (globalGroups (storeOf (sample_removeGroup "A" move Sample.tree)))
    (Some "ROOT").
Proof.
  apply (removeGroup_keeps_connections_resolvable Sample.RootGroupId
           Sample.RootGroupName Sample.stackLimit Sample.tree
           (storeOf (sample_removeGroup "A" move Sample.tree)) "A" move true
           eq_refl sample_tree_connections_resolve
           (Sample.server "c1" "ROOT" "alpha")).
  vm_compute. constructor.
Defined.

(** After A is removed with its contents moved, B hangs under ROOT. *)
Lemma removeGroup_keeps_parents_resolvable_witness :
  resolves Sample.RootGroupId
    (globalGroups (storeOf (sample_removeGroup "A" move Sample.tree)))
    (Some "ROOT").
Proof.
  apply (removeGroup_keeps_parents_resolvable Sample.RootGroupId
           Sample.RootGroupName Sample.stackLimit Sample.tree
           (storeOf (sample_removeGroup "A" move Sample.tree)) "A" move true
           eq_refl sample_tree_parents_resolve
           (Group.mk (Some "B") (Some "b") (Some "ROOT"))).
  - vm_compute. constructor.
  - reflexivity.
Defined.

(** Deleting A twice. *)
Lemma removeGroup_again_witness :
  sample_removeGroup "A" delete
    (storeOf (sample_removeGroup "A" delete Sample.tree))
  = Return false (storeOf (sample_removeGroup "A" delete Sample.tree)).
Proof.
  apply (removeGroup_again Sample.RootGroupId Sample.RootGroupName
           Sample.stackLimit Sample.tree).
  vm_compute. reflexivity.
Defined.

(** Pointing c2 at another server. *)
Lemma updateConnection_replaces_first_witness :
  ∃ st' : Store,
    sample_updateConnection (Sample.server "c2" "ROOT" "omega") Sample.mixed
    = Return tt st'
    ∧ globalConnections st'
      = [Sample.server "c1" "ROOT" "alpha"; Sample.server "c2" "ROOT" "omega";
         Sample.server "c3" "ROOT" "gamma"].
Proof.
  destruct (updateConnection_replaces_first Sample.RootGroupId
              Sample.RootGroupName Sample.SampleServerName Sample.localeCompare
              Sample.mixed (Sample.server "c2" "ROOT" "omega")
              (Sample.server "c2" "ROOT" "beta")
              [Sample.server "c1" "ROOT" "alpha"]
              [Sample.server "c3" "ROOT" "gamma"])
    as (st' & Hrun & Hconns & _).
  - vm_compute. reflexivity.
  - reflexivity.
  - intros x Hx. apply list_elem_of_singleton in Hx as ->. discriminate.
  - exists st'. split; [exact Hrun | exact Hconns].
Defined.

Lemma sample_generateGuid_not_root (k : nat) :
  Sample.generateGuid k ≠ Sample.RootGroupId.
Proof. unfold Sample.generateGuid. simpl. discriminate. Qed.

(** Initialization of the settings of an older version. *)
Lemma initialize_repairs_witness :
  ∃ st1 : Store,
    sample_initialize Sample.legacy = Return tt st1
    ∧ List.length (globalConnections st1) = 3
    ∧ ∀ p, p ∈ globalConnections st1 →
           Profile.id p ≠ None ∧ Profile.groupId p ≠ None.
Proof.
  destruct (initialize_repairs Sample.RootGroupId Sample.RootGroupName
              Sample.generateGuid) with (st := Sample.legacy)
    as (st1 & Hrun & _ & _ & Hlen & Hids & _).
  - discriminate.
  - apply sample_generateGuid_nonempty.
  - apply sample_generateGuid_not_root.
  - intros k g Hg. unfold Sample.generateGuid. simpl in *.
    repeat (apply elem_of_cons in Hg as [->|Hg]; [simpl; discriminate|]).
    by apply elem_of_nil in Hg.
  - exists st1. split; [exact Hrun|]. split; [exact Hlen | exact Hids].
Defined.

(** The two reads of the store with a workspace profile. *)
Lemma getConnections_workspace_extends_global_witness :
  ∃ view W : list Profile.t,
    sample_getConnections false Sample.mixed = Return view Sample.mixed
    ∧ [Sample.server "c1" "ROOT" "alpha"; Sample.server "c2" "ROOT" "beta";
       Sample.server "c3" "ROOT" "gamma"; Sample.server "w1" "ROOT" "aardvark"]
      = view ++ W.
Proof.
  destruct (getConnections_workspace_extends_global Sample.RootGroupId
              Sample.RootGroupName Sample.SampleServerName Sample.localeCompare
              Sample.mixed Sample.mixed
              [Sample.server "c1" "ROOT" "alpha"; Sample.server "c2" "ROOT" "beta";
               Sample.server "c3" "ROOT" "gamma";
               Sample.server "w1" "ROOT" "aardvark"])
    as (view & W & Hget & Happ & _).
  - vm_compute. reflexivity.
  - exists view, W. split; [exact Hget | exact Happ].
Defined.

(** A run that registers two runners, writes a status and appends a
    step. *)
Lemma getAll_distinct_ids_witness :
  NoDup
    (QueryRunner.ids
       (QueryRunner.calls
          [QueryRunner.UpdateQueryRunner 0;
           QueryRunner.Assign 0 (QueryRunner.Info.with_status "Completed");
           QueryRunner.UpdateQueryRunner 0; QueryRunner.UpdateQueryRunner 1;
           QueryRunner.AppendStep "r1" QueryRunner.sampleStep]
          (QueryRunner.sampleHeap, QueryRunner.empty)).1
       (QueryRunner.getAll
          (QueryRunner.calls
             [QueryRunner.UpdateQueryRunner 0;
              QueryRunner.Assign 0 (QueryRunner.Info.with_status "Completed");
              QueryRunner.UpdateQueryRunner 0; QueryRunner.UpdateQueryRunner 1;
              QueryRunner.AppendStep "r1" QueryRunner.sampleStep]
             (QueryRunner.sampleHeap, QueryRunner.empty)).2))
  ∧ QueryRunner.ids
      (QueryRunner.calls
         [QueryRunner.UpdateQueryRunner 0;
          QueryRunner.Assign 0 (QueryRunner.Info.with_status "Completed");
          QueryRunner.UpdateQueryRunner 0; QueryRunner.UpdateQueryRunner 1;
          QueryRunner.AppendStep "r1" QueryRunner.sampleStep]
         (QueryRunner.sampleHeap, QueryRunner.empty)).1
      (QueryRunner.getAll
         (QueryRunner.calls
            [QueryRunner.UpdateQueryRunner 0;
             QueryRunner.Assign 0 (QueryRunner.Info.with_status "Completed");
             QueryRunner.UpdateQueryRunner 0; QueryRunner.UpdateQueryRunner 1;
             QueryRunner.AppendStep "r1" QueryRunner.sampleStep]
            (QueryRunner.sampleHeap, QueryRunner.empty)).2)
    = ["r1"; "r2"].
Proof.
  split; [|vm_compute; reflexivity].
  apply (getAll_distinct_ids
           [QueryRunner.UpdateQueryRunner 0;
            QueryRunner.Assign 0 (QueryRunner.Info.with_status "Completed");
            QueryRunner.UpdateQueryRunner 0; QueryRunner.UpdateQueryRunner 1;
            QueryRunner.AppendStep "r1" QueryRunner.sampleStep]
           QueryRunner.sampleHeap).
  repeat constructor.
Defined.

(** A first step for the runner that has started; a step for a runner
    that is not registered. *)
Lemma appendStep_extends_runner_witness :
  (∃ h' : QueryRunner.Heap,
     QueryRunner.appendStep "r1" QueryRunner.sampleStep QueryRunner.sampleHeap
       (QueryRunner.mkManager [("r1", 0)] 1)
     = (h', QueryRunner.mkManager [("r1", 0)] 2)
     ∧ h' 0 = QueryRunner.Info.with_steps (Some [QueryRunner.sampleStep])
                QueryRunner.sampleRunner
     ∧ ∀ r, r ≠ 0 → h' r = QueryRunner.sampleHeap r)
  ∧ QueryRunner.appendStep "r2" QueryRunner.sampleStep QueryRunner.sampleHeap
      (QueryRunner.mkManager [("r1", 0)] 1)
    = (QueryRunner.sampleHeap, QueryRunner.mkManager [("r1", 0)] 1).
Proof.
  destruct (appendStep_extends_runner QueryRunner.sampleHeap
              (QueryRunner.mkManager [("r1", 0)] 1)
              "r1" QueryRunner.sampleStep) as [Hknown _].
  destruct (appendStep_extends_runner QueryRunner.sampleHeap
              (QueryRunner.mkManager [("r1", 0)] 1)
              "r2" QueryRunner.sampleStep) as [_ Hunknown].
  split.
  - destruct (Hknown [] [] 0 eq_refl) as (h' & Hrun & Hrunner & Hothers & _).
    { intros e He. by apply elem_of_nil in He. }
    exists h'. split; [exact Hrun|]. split; [exact Hrunner | exact Hothers].
  - apply Hunknown. intros e He. simpl in He.
    apply list_elem_of_singleton in He as ->. discriminate.
Defined.

(** Registering the runner with the empty manager, and removing it. *)
Lemma updateQueryRunner_registers_witness :
  QueryRunner.getAll
    (QueryRunner.updateQueryRunner 0 QueryRunner.sampleHeap QueryRunner.empty)
  = [0]
  ∧ QueryRunner.getAll
      (QueryRunner.removeQueryRunner "r1"
         (QueryRunner.updateQueryRunner 0 QueryRunner.sampleHeap
            QueryRunner.empty))
    = [].
Proof.
  destruct (updateQueryRunner_registers QueryRunner.sampleHeap QueryRunner.empty
              0) as (_ & Hfresh & _).
  apply Hfresh. intros e He. by apply elem_of_nil in He.
Defined.

(** The started runner, registered, renamed and registered again. *)
Lemma getAll_lists_renamed_runner_twice_witness :
  ∃ (h' : QueryRunner.Heap) (mgr' : QueryRunner.Manager),
    QueryRunner.calls
      [QueryRunner.UpdateQueryRunner 0;
       QueryRunner.Assign 0 (QueryRunner.Info.with_id "r2");
       QueryRunner.UpdateQueryRunner 0]
      (QueryRunner.sampleHeap, QueryRunner.empty)
    = (h', mgr')
    ∧ QueryRunner.queryRunners mgr' = [("r1", 0); ("r2", 0)]
    ∧ QueryRunner.ids h' (QueryRunner.getAll mgr') = ["r2"; "r2"].
Proof.
  destruct (getAll_lists_renamed_runner_twice QueryRunner.sampleHeap 0
              (QueryRunner.Info.with_id "r2"))
    as (h' & mgr' & Hrun & Hmap & _ & Hids).
  - discriminate.
  - exists h', mgr'. split; [exact Hrun|]. split; [exact Hmap | exact Hids].
Defined.
